(** * Dependency resolution of textual equations

    A shallow embedding of [src/classes/Graph.js], the topological sorter
    ([TopologicalSorter], in [src/unnamed/part_000]) and the two resolvers
    of [src/classes/EquationResolver.js].

    JavaScript strings are modelled as [string], and as the list of their
    characters where the pattern [/\b[A-Z]+\b(?!\()/g] runs over them; the
    pattern only distinguishes upper-case letters, the other word
    characters, the opening parenthesis and everything else, so the
    byte-wise view of a string is enough.

    JavaScript objects used as maps ([marked], [onStack], [edgeTo], [adj],
    [expandedEquations]) are modelled as [gmap]/[gset] over strings, and
    objects whose keys are enumerated ([vertices], the input equations) as
    lists in insertion order.  A plain object also answers for the
    properties it inherits from [Object.prototype] ([constructor],
    [toString], ...), and enumerates array-index keys first; none of these
    names is a run of upper-case letters, so on the names the pattern can
    produce and on upper-case equation names the model and the object agree.
    Statements over arbitrary inputs therefore carry [wf_equations].

    The recursion of [dfs] and the loop that walks [edgeTo] back have no
    bound in the code; they are given fuel here, [None] standing for a call
    that does not return, and are proved to return. *)

From Stdlib Require Import Ascii String.
From stdpp Require Import gmap strings list fin_maps relations sorting.

Set Warnings "-clear-no-such-hyp".

Open Scope string_scope.
Open Scope list_scope.
Open Scope nat_scope.

(** ** Errors thrown by the code *)

Inductive js_error :=
| Error (message : string)   (* [throw new Error( message )] *)
| TypeError.                 (* a method called on [undefined] *)

(** What a call ends with: an error thrown, on the left, or the value
    returned. *)
Abbreviation result A := (js_error + A)%type.

(** [_.forEach( collection, callback )] where the callback updates the
    state it closes over; [None] stands for a callback that does not
    return. *)
Fixpoint forEach {A S : Type} (collection : list A)
    (callback : A -> S -> option S) (s : S) : option S :=
  match collection with
  | [] => Some s
  | x :: rest =>
      match callback x s with
      | Some s' => forEach rest callback s'
      | None => None
      end
  end.

(** The same loop for a callback that may throw. *)
Fixpoint forEachThrowing {A S : Type} (collection : list A)
    (callback : A -> S -> result S) (s : S) : result S :=
  match collection with
  | [] => inr s
  | x :: rest =>
      match callback x s with
      | inr s' => forEachThrowing rest callback s'
      | inl e => inl e
      end
  end.

(** ** The pattern [/\b[A-Z]+\b(?!\()/g] *)

Module RegExp.

(** The subject string as the sequence of its characters. *)
Abbreviation chars := (list ascii).

(** [[A-Z]] *)
Definition is_upper (c : ascii) : bool :=
  let n := nat_of_ascii c in (65 <=? n) && (n <=? 90).

(** [\w], that is [[A-Za-z0-9_]] *)
Definition is_word (c : ascii) : bool :=
  let n := nat_of_ascii c in
  is_upper c
  || ((97 <=? n) && (n <=? 122))
  || ((48 <=? n) && (n <=? 57))
  || (n =? 95).

Definition is_open_paren (c : ascii) : bool := nat_of_ascii c =? 40.

(** A position in the subject string is the character before it (if any)
    and the text from it on. *)

(** [\b]: exactly one of the two neighbours is a word character. *)
Definition word_boundary (prev : option ascii) (rest : chars) : bool :=
  xorb (from_option is_word false prev)
       (match rest with c :: _ => is_word c | [] => false end).

(** [(?!\()] *)
Definition not_before_paren (rest : chars) : bool :=
  match rest with
  | c :: _ => negb (is_open_paren c)
  | [] => true
  end.

(** [\b(?!\()] after a run ending in [last]. *)
Definition tail_matches (last : ascii) (rest : chars) : option (chars * chars) :=
  if word_boundary (Some last) rest && not_before_paren rest
  then Some ([], rest) else None.

(** [[A-Z]+\b(?!\()] once one letter, [last], has been taken.  The
    quantifier is greedy: one more letter is taken first, and it is given
    back when the rest of the pattern then fails.  The result is the text
    matched from here on and the text after the match. *)
Fixpoint upper_plus_tail (last : ascii) (rest : chars) : option (chars * chars) :=
  match rest with
  | c :: rest' =>
      if is_upper c then
        match upper_plus_tail c rest' with
        | Some (m, r) => Some (c :: m, r)
        | None => tail_matches last rest
        end
      else tail_matches last rest
  | [] => tail_matches last rest
  end.

(** One attempt of the whole pattern at a position. *)
Definition match_at (prev : option ascii) (s : chars) : option (chars * chars) :=
  if word_boundary prev s then
    match s with
    | c :: rest =>
        if is_upper c then
          match upper_plus_tail c rest with
          | Some (m, r) => Some (c :: m, r)
          | None => None
          end
        else None
    | [] => None
    end
  else None.

(** The subject string cut by the successive matches of the global
    pattern: the characters no match covers, and the matches. *)
Inductive piece :=
| Text (c : ascii)
| Match (tok : chars).

(** The [g] flag: attempts are made at each position from left to right,
    and after a match the next attempt is made at the end of that match;
    [skip] counts the characters of the current match still to pass. *)
Fixpoint exec_global (prev : option ascii) (skip : nat) (s : chars) : list piece :=
  match s with
  | [] => []
  | c :: rest =>
      match skip with
      | S k => exec_global (Some c) k rest
      | O =>
          match match_at prev s with
          | Some (tok, _) => Match tok :: exec_global (Some c) (length tok - 1) rest
          | None => Text c :: exec_global (Some c) 0 rest
          end
      end
  end.

(** A global pattern, taken as what its successive matches make of a
    subject string. *)
Definition t := chars -> list piece.

(** The pattern of this program. *)
Definition pieces : t := exec_global None 0.

Definition matches (ps : list piece) : list chars :=
  omap (fun p => match p with Match tok => Some tok | Text _ => None end) ps.

(** The subject string with every match replaced. *)
Definition substitute (replacement : chars -> chars) (ps : list piece) : chars :=
  flat_map (fun p => match p with Text c => [c] | Match tok => replacement tok end) ps.

(** The text the pieces stand for. *)
Definition text (ps : list piece) : chars := substitute id ps.

(** *** Notions for the proofs *)

(** The longest run of upper-case letters at the head, and what follows. *)
Fixpoint upper_run (s : chars) : chars * chars :=
  match s with
  | c :: rest =>
      if is_upper c then let '(u, r) := upper_run rest in (c :: u, r)
      else ([], s)
  | [] => ([], [])
  end.

(** What may follow a match: nothing, or a character that is neither a
    word character nor an opening parenthesis. *)
Definition ends_ok (r : chars) : bool :=
  match r with
  | [] => true
  | d :: _ => negb (is_word d) && negb (is_open_paren d)
  end.

Definition prev_word (prev : option ascii) : bool := from_option is_word false prev.

(** The character before the position reached after [pre]. *)
Definition ctx (prev : option ascii) (pre : chars) : option ascii :=
  from_option Some prev (last pre).

(** The pattern matches at no position of [s]. *)
Definition quiet (prev : option ascii) (s : chars) : Prop :=
  ∀ l1 l2, s = l1 ++ l2 → match_at (ctx prev l1) l2 = None.

(** What comes after a replaced match: nothing, or a character that is
    not a word character. *)
Definition starts_apart (s : chars) : Prop :=
  match s with d :: _ => is_word d = false | [] => True end.

End RegExp.

(** [str.match( regexp )] for a global pattern: the array of all matches,
    or [null]. *)
Definition String_match (str : string) (regexp : RegExp.t) : option (list string) :=
  match RegExp.matches (regexp (list_ascii_of_string str)) with
  | [] => None
  | ms => Some (string_of_list_ascii <$> ms)
  end.

(** [str.replace( regexp, replacer )] for a global pattern and a function:
    every match is replaced by what the function returns for it,
    [undefined] being written out. *)
Definition String_replace (str : string) (regexp : RegExp.t)
    (replacer : string -> option string) : string :=
  string_of_list_ascii
    (RegExp.substitute
       (fun tok => list_ascii_of_string
                     (default "undefined" (replacer (string_of_list_ascii tok))))
       (regexp (list_ascii_of_string str))).

(** ** [Graph]: a directed graph of string vertices (src/classes/Graph.js) *)

Record Graph := {
  vertices : list string;              (* the keys of [this.vertices], in insertion order *)
  adj : gmap string (list string)      (* [this.adj]: the adjacency lists *)
}.

Definition new_Graph : Graph := {| vertices := []; adj := ∅ |}.

(** [this.vertices[ v ] = true]: a key that is already there keeps its place. *)
Definition addVertex (v : string) (g : Graph) : Graph :=
  {| vertices := if decide (v ∈ vertices g) then vertices g else vertices g ++ [v];
     adj := adj g |}.

Definition getVertices (g : Graph) : list string := vertices g.

Definition getAdjacencyList (g : Graph) (v : string) : list string :=
  default [] (adj g !! v).

Definition addEdge (v w : string) (g : Graph) : Graph :=
  let adj1 := match adj g !! v with Some _ => adj g | None => <[v := []]> (adj g) end in
  let l : list string := default [] (adj1 !! v) in
  {| vertices := vertices g;
     adj := if decide (w ∈ l) then adj1 else <[v := l ++ [w]]> adj1 |}.

(** ** [TopologicalSorter] (src/unnamed/part_000) *)

Record TopologicalSorter := {
  marked : gset string;
  ordering : list string;
  onStack : gset string;
  edgeTo : gmap string string;
  cycle : option (list string)         (* [null] is [None] *)
}.

Definition set_marked (v : string) (t : TopologicalSorter) : TopologicalSorter :=
  {| marked := {[v]} ∪ marked t; ordering := ordering t; onStack := onStack t;
     edgeTo := edgeTo t; cycle := cycle t |}.

Definition set_onStack (v : string) (t : TopologicalSorter) : TopologicalSorter :=
  {| marked := marked t; ordering := ordering t; onStack := {[v]} ∪ onStack t;
     edgeTo := edgeTo t; cycle := cycle t |}.

Definition delete_onStack (v : string) (t : TopologicalSorter) : TopologicalSorter :=
  {| marked := marked t; ordering := ordering t; onStack := onStack t ∖ {[v]};
     edgeTo := edgeTo t; cycle := cycle t |}.

Definition set_edgeTo (w v : string) (t : TopologicalSorter) : TopologicalSorter :=
  {| marked := marked t; ordering := ordering t; onStack := onStack t;
     edgeTo := <[w := v]> (edgeTo t); cycle := cycle t |}.

Definition set_cycle (c : list string) (t : TopologicalSorter) : TopologicalSorter :=
  {| marked := marked t; ordering := ordering t; onStack := onStack t;
     edgeTo := edgeTo t; cycle := Some c |}.

Definition push_ordering (v : string) (t : TopologicalSorter) : TopologicalSorter :=
  {| marked := marked t; ordering := ordering t ++ [v]; onStack := onStack t;
     edgeTo := edgeTo t; cycle := cycle t |}.

(** [for( var x = v; x != w; x = this.edgeTo[ x ] ) this.cycle.unshift( x )].
    The loop has no bound of its own: once [edgeTo] has no entry for [x] it
    never ends, which is [None] here, as is running out of [fuel]. *)
Fixpoint unwind (fuel : nat) (edgeTo : gmap string string) (w x : string)
    (cyc : list string) : option (list string) :=
  if decide (x = w) then Some cyc
  else
    match fuel with
    | O => None
    | S fuel' =>
        match edgeTo !! x with
        | Some x' => unwind fuel' edgeTo w x' (x :: cyc)
        | None => None
        end
    end.

(** The callback of the loop over the adjacency list of [v] in [dfs];
    [recur] is the recursive call [this.dfs( graph, w )]. *)
Definition visit (recur : string -> TopologicalSorter -> option TopologicalSorter)
    (v w : string) (t : TopologicalSorter) : option TopologicalSorter :=
  match cycle t with
  | Some _ => Some t
  | None =>
      if decide (w ∉ marked t) then recur w (set_edgeTo w v t)
      else if decide (w ∈ onStack t) then
        match unwind (size (onStack t)) (edgeTo t) w v [w] with
        | Some cyc => Some (set_cycle (w :: cyc) t)
        | None => None
        end
      else Some t
  end.

(** [dfs]; [fuel] bounds the depth of the recursion. *)
Fixpoint dfs (fuel : nat) (graph : Graph) (v : string) (t : TopologicalSorter)
    : option TopologicalSorter :=
  match fuel with
  | O => None
  | S fuel' =>
      match forEach (getAdjacencyList graph v) (visit (dfs fuel' graph) v)
                    (set_onStack v (set_marked v t)) with
      | Some t' => Some (push_ordering v (delete_onStack v t'))
      | None => None
      end
  end.

(** Every name the traversal can meet: the vertices and the targets of edges. *)
Definition universe (graph : Graph) : gset string :=
  list_to_set (vertices graph)
  ∪ ⋃ ((fun kv : string * list string => list_to_set kv.2) <$> map_to_list (adj graph)).

Definition init_TopologicalSorter : TopologicalSorter :=
  {| marked := ∅; ordering := []; onStack := ∅; edgeTo := ∅; cycle := None |}.

(** The constructor. *)
Definition new_TopologicalSorter (graph : Graph) : option TopologicalSorter :=
  forEach (getVertices graph)
    (fun vertex t =>
       if decide (vertex ∉ marked t)
       then dfs (S (size (universe graph))) graph vertex t
       else Some t)
    init_TopologicalSorter.

Module Sorter.
Definition hasCycle (t : TopologicalSorter) : bool := bool_decide (cycle t ≠ None).
Definition getCycle (t : TopologicalSorter) : option (list string) := cycle t.
Definition getOrdering (t : TopologicalSorter) : result (list string) :=
  if hasCycle t then inl (Error "Graph has a cycle, no topological ordering exists")
  else inr (ordering t).
End Sorter.

(** ** The input: an object mapping equation names to expressions *)

(** The own properties in enumeration order. *)
Definition EquationMap := list (string * string).

Fixpoint get (o : EquationMap) (key : string) : option string :=
  match o with
  | [] => None
  | (k, e) :: o' => if decide (k = key) then Some e else get o' key
  end.

(** Equation names are non-empty runs of upper-case letters. *)
Fixpoint all_upper (s : string) : bool :=
  match s with
  | EmptyString => true
  | String c s' => RegExp.is_upper c && all_upper s'
  end.

Definition valid_name (name : string) : Prop :=
  name ≠ EmptyString ∧ all_upper name = true.

Definition wf_equations (o : EquationMap) : Prop :=
  NoDup o.*1 ∧ Forall valid_name o.*1.

#[global] Instance valid_name_dec name : Decision (valid_name name).
Proof. unfold valid_name. apply _. Defined.

#[global] Instance wf_equations_dec o : Decision (wf_equations o).
Proof. unfold wf_equations. apply _. Defined.

(** The events that cost work: what is computed, and when. *)
Inductive work :=
| BuildGraph
| Sort
| Replace (exprName : string).

(** ** [EquationResolver] (src/classes/EquationResolver.js) *)

Module EquationResolver.

Record t := {
  inputEquations : EquationMap;
  graphCycle : option (list string);        (* unset is [None] *)
  topologicalOrder : option (list string)   (* unset is [None] *)
}.

(** [/\b[A-Z]+\b(?!\()/g] *)
Definition exprVarTokenRe : RegExp.t := RegExp.pieces.

Definition buildGraph (inputEquations : EquationMap) : Graph :=
  foldl (fun graph '(exprName, expr) =>
           let exprDependencies := default [] (String_match expr exprVarTokenRe) in
           foldl (fun graph exprDependencyName =>
                    addEdge exprName exprDependencyName
                      (addVertex exprDependencyName graph))
                 (addVertex exprName graph) exprDependencies)
        new_Graph inputEquations.

(** The constructor, with the work it does. *)
Definition new_traced (inputEquations : EquationMap) : option (t * list work) :=
  let graph := buildGraph inputEquations in
  match new_TopologicalSorter graph with
  | None => None
  | Some topologicalSorter =>
      Some (if Sorter.hasCycle topologicalSorter
            then {| inputEquations := inputEquations;
                    graphCycle := Sorter.getCycle topologicalSorter;
                    topologicalOrder := None |}
            else {| inputEquations := inputEquations;
                    graphCycle := None;
                    topologicalOrder :=
                      match Sorter.getOrdering topologicalSorter with
                      | inr o => Some o
                      | inl _ => None   (* not met: [hasCycle] is false here *)
                      end |},
            [BuildGraph; Sort])
  end.

Definition new (inputEquations : EquationMap) : option t :=
  fst <$> new_traced inputEquations.

(** [!!this.graphCycle]: an array is truthy, also an empty one. *)
Definition hasCycle (this : t) : bool :=
  match graphCycle this with Some _ => true | None => false end.

Definition getCycle (this : t) : option (list string) := graphCycle this.

(** The body of the loop over [this.topologicalOrder]. *)
Definition expand (inputEquations : EquationMap) (exprName : string)
    (st : gmap string string * list work) : result (gmap string string * list work) :=
  let '(expandedEquations, log) := st in
  match get inputEquations exprName with
  | None => inl TypeError      (* [undefined.replace( ... )] *)
  | Some expr =>
      inr (<[exprName :=
               String_replace expr exprVarTokenRe (fun exprVar => expandedEquations !! exprVar)]>
             expandedEquations,
           log ++ [Replace exprName])
  end.

(** The method, with the work it does; it assigns no field of [this]. *)
Definition getExpandedEquations_traced (this : t)
    : result (gmap string string * list work) :=
  if hasCycle this
  then inl (Error "Input equations have a cycle. Cannot resolve dependencies in equations.")
  else forEachThrowing (default [] (topologicalOrder this))
         (expand (inputEquations this)) (∅, []).

Definition getExpandedEquations (this : t) : result (gmap string string) :=
  match getExpandedEquations_traced this with
  | inl e => inl e
  | inr (expandedEquations, _) => inr expandedEquations
  end.


End EquationResolver.

(** ** [ExpressionResolver] (the second class of src/classes/EquationResolver.js) *)

Module ExpressionResolver.

Record t := {
  inputExpressions : EquationMap;
  graphHasCycle : bool;
  graphCycle : option (list string);        (* unset is [None] *)
  topologicalOrder : option (list string)   (* unset is [None] *)
}.

(** [/\b[A-Z]+\b(?!\()/g] *)
Definition exprVarTokenRe : RegExp.t := RegExp.pieces.

Definition buildGraph (inputExpressions : EquationMap) : Graph :=
  foldl (fun graph '(exprName, expr) =>
           let exprDependencies := default [] (String_match expr exprVarTokenRe) in
           foldl (fun graph exprDependencyName =>
                    addEdge exprName exprDependencyName
                      (addVertex exprDependencyName graph))
                 (addVertex exprName graph) exprDependencies)
        new_Graph inputExpressions.

Definition new (inputExpressions : EquationMap) : option t :=
  let graph := buildGraph inputExpressions in
  match new_TopologicalSorter graph with
  | None => None
  | Some topologicalSorter =>
      let graphHasCycle := Sorter.hasCycle topologicalSorter in
      Some (if graphHasCycle
            then {| inputExpressions := inputExpressions;
                    graphHasCycle := graphHasCycle;
                    graphCycle := Sorter.getCycle topologicalSorter;
                    topologicalOrder := None |}
            else {| inputExpressions := inputExpressions;
                    graphHasCycle := graphHasCycle;
                    graphCycle := None;
                    topologicalOrder :=
                      match Sorter.getOrdering topologicalSorter with
                      | inr o => Some o
                      | inl _ => None   (* not met: [hasCycle] is false here *)
                      end |})
  end.

Definition hasCycle (this : t) : bool := graphHasCycle this.

Definition getCycle (this : t) : option (list string) := graphCycle this.

Definition expand (inputExpressions : EquationMap) (exprName : string)
    (expandedExpressions : gmap string string) : result (gmap string string) :=
  match get inputExpressions exprName with
  | None => inl TypeError      (* [undefined.replace( ... )] *)
  | Some expr =>
      inr (<[exprName :=
               String_replace expr exprVarTokenRe (fun exprVar => expandedExpressions !! exprVar)]>
             expandedExpressions)
  end.

Definition getExpandedExpressions (this : t) : result (gmap string string) :=
  if hasCycle this
  then inl (Error "Input expressions have a cycle. Cannot resolve dependencies in expressions.")
  else forEachThrowing (default [] (topologicalOrder this))
         (expand (inputExpressions this)) ∅.

End ExpressionResolver.

(** ** The vocabulary of the specification *)

(** The example of the documentation. *)
Definition canonical : EquationMap :=
  [("A", "B+2"); ("B", "C+5"); ("C", "1"); ("D", "A+B")].

(** The graph has a directed edge from [v] to [w]. *)
Definition edge (g : Graph) (v w : string) : Prop := w ∈ getAdjacencyList g v.

(** The graph has a directed cycle. *)
Definition cyclic (g : Graph) : Prop := ∃ v, tc (edge g) v v.

(** Consecutive elements are joined by edges. *)
Fixpoint walk (g : Graph) (l : list string) : Prop :=
  match l with
  | a :: (b :: _) as l' => edge g a b ∧ walk g l'
  | _ => True
  end.

(** A closed walk: it starts and ends with the same name. *)
Definition is_cycle (g : Graph) (c : list string) : Prop :=
  ∃ w l, c = w :: l ∧ last l = Some w ∧ walk g c.

(** [w] stands before [v] in the list. *)
Definition before (w v : string) (l : list string) : Prop :=
  ∃ i j, i < j ∧ l !! i = Some w ∧ l !! j = Some v.

(** Both ends of every edge are vertices. *)
Definition closed (g : Graph) : Prop :=
  ∀ v w, edge g v w → v ∈ vertices g ∧ w ∈ vertices g.

(** The token rule in the words of the specification: standing between
    [pre] and [post], [tok] is a variable token when it is a run of one or
    more upper-case letters, maximal (no upper-case letter next to it), a
    whole word (no word character next to it), and not immediately followed
    by an opening parenthesis. *)
Definition is_variable_token (pre tok post : list ascii) : Prop :=
  tok ≠ [] ∧ Forall (fun c => RegExp.is_upper c = true) tok ∧
  (∀ c, last pre = Some c ∨ head post = Some c → RegExp.is_upper c = false) ∧
  (∀ c, last pre = Some c ∨ head post = Some c → RegExp.is_word c = false) ∧
  head post ≠ Some "("%char.

(** The variable tokens of an expression: [expr.match( exprVarTokenRe ) || []]. *)
Definition tokens (expr : string) : list string :=
  default [] (String_match expr EquationResolver.exprVarTokenRe).

(** The expression has no variable token. *)
Definition token_free (expr : string) : Prop := tokens expr = [].

(** The operations of [Graph] that change it. *)
Inductive graph_op :=
| AddVertex (v : string)
| AddEdge (v w : string).

Definition apply_op (g : Graph) (op : graph_op) : Graph :=
  match op with
  | AddVertex v => addVertex v g
  | AddEdge v w => addEdge v w g
  end.

Definition valid_op (op : graph_op) : Prop :=
  match op with
  | AddVertex v => valid_name v
  | AddEdge v w => valid_name v ∧ valid_name w
  end.

(** The two resolvers end alike: the same mapping, or an error of the same
    kind (the messages differ in the noun). *)
Definition same_outcome (a b : result (gmap string string)) : Prop :=
  match a, b with
  | inr m, inr m' => m = m'
  | inl (Error _), inl (Error _) => True
  | inl TypeError, inl TypeError => True
  | _, _ => False
  end.

(** A second example, with a cycle through two equations. *)
Definition two_cycle : EquationMap := [("A", "B+1"); ("B", "A+1")].


(** ** The program [equations.js] (src/unnamed/part_001) *)

(** The line feed. *)
Definition newline : string := String "010"%char EmptyString.

(** [equationsToString]: the keys sorted ([sort] without a comparison
    function orders strings by their characters' codes), one line
    [key=equation] for each, the lines joined by line feeds.  The object is
    given by its own properties; their order of enumeration is lost in the
    sorting. *)
Definition equationsToString (equations : EquationMap) : string :=
  let orderedKeys := merge_sort String.le equations.*1 in
  String.concat newline
    ((fun key => key +:+ "=" +:+ default "undefined" (get equations key))
       <$> orderedKeys).

(** The body of the program, for the equations it is given: the lines
    written to the console, and the error that ends it if one is thrown and
    not caught.  [None] stands for a run that does not end. *)
Definition main (inputEquations : EquationMap) : option (list string * option js_error) :=
  let shown := "Input Equations:" +:+ newline +:+ equationsToString inputEquations
               +:+ newline in
  match EquationResolver.new inputEquations with
  | None => None
  | Some equationResolver =>
      Some
        (if EquationResolver.hasCycle equationResolver then
           match EquationResolver.getCycle equationResolver with
           | Some c =>
               ([shown;
                 "Equations have a cycle, cannot resolve. Cycle: "
                 +:+ String.concat "->" c], None)
           | None => ([shown], Some TypeError)   (* [undefined.join( ... )] *)
           end
         else
           match EquationResolver.getExpandedEquations equationResolver with
           | inr expandedEquations =>
               ([shown;
                 "Output (Expanded) Equations:" +:+ newline
                 +:+ equationsToString (map_to_list expandedEquations)], None)
           | inl e => ([shown], Some e)
           end)
  end.

(** ** Further vocabulary *)

(** The equation of [v] refers to [w]. *)
Definition depends (inputEquations : EquationMap) (v w : string) : Prop :=
  ∃ expr, (v, expr) ∈ inputEquations ∧ w ∈ tokens expr.

(** A cycle that names nothing twice, but for the name that closes it. *)
Definition simple_cycle (c : list string) : Prop :=
  ∃ name middle, c = name :: middle ++ [name] ∧ NoDup (name :: middle).

(** Every token of every expression has an equation. *)
Definition all_defined (inputEquations : EquationMap) : Prop :=
  ∀ name expr v, (name, expr) ∈ inputEquations → v ∈ tokens expr →
    v ∈ inputEquations.*1.

(** Further examples: a target that was never added as a vertex, a
    diamond, and a cycle reached through a vertex outside of it. *)
Definition dangling_ops : list graph_op :=
  [AddVertex "A"; AddEdge "A" "B"; AddEdge "B" "A"].

Definition diamond_ops : list graph_op :=
  [AddVertex "A"; AddVertex "B"; AddVertex "C"; AddVertex "D";
   AddEdge "A" "B"; AddEdge "A" "C"; AddEdge "B" "D"; AddEdge "C" "D"].

Definition lasso_ops : list graph_op :=
  [AddVertex "D"; AddVertex "B"; AddVertex "C"; AddVertex "A";
   AddEdge "D" "B"; AddEdge "B" "C"; AddEdge "C" "A"; AddEdge "A" "B"].

(** Works out the resolver of a given input and applies a result about it. *)
Ltac with_resolver input tac :=
  let o := fresh "o" in
  let Ho := fresh "Ho" in
  let Ho' := fresh "Ho'" in
  remember (EquationResolver.new input) as o eqn:Ho;
  pose proof Ho as Ho'; vm_compute in Ho';
  match type of Ho' with
  | _ = Some ?R => tac R (eq_trans (eq_sym Ho) Ho')
  end.

(** The same for the second resolver. *)
Ltac with_expression_resolver input tac :=
  let o := fresh "o" in
  let Ho := fresh "Ho" in
  let Ho' := fresh "Ho'" in
  remember (ExpressionResolver.new input) as o eqn:Ho in |-;
  pose proof Ho as Ho'; vm_compute in Ho';
  match type of Ho' with
  | _ = Some ?R => tac R (eq_trans (eq_sym Ho) Ho')
  end.

(** ** Notions for the proofs *)

(** Between two states of the sorter: a cycle recorded in the later one was
    there in the earlier one, or is simple. *)
Definition cycle_kept_or_simple (t t' : TopologicalSorter) : Prop :=
  ∀ c, cycle t' = Some c → cycle t = Some c ∨ simple_cycle c.

(** The stack of the search, innermost call first: each vertex was entered
    from the one below it, along an edge, and [edgeTo] records it. *)
Fixpoint chain (g : Graph) (eT : gmap string string) (stk : list string) : Prop :=
  match stk with
  | v :: (u :: _) as stk' => eT !! v = Some u ∧ edge g u v ∧ chain g eT stk'
  | _ => True
  end.

Record inv (g : Graph) (U : gset string) (stk : list string)
    (t : TopologicalSorter) : Prop := {
  inv_marked : marked t = onStack t ∪ list_to_set (ordering t);
  inv_stack : onStack t = list_to_set stk;
  inv_stack_nodup : NoDup stk;
  inv_chain : chain g (edgeTo t) stk;
  inv_disj : ∀ v, v ∈ onStack t → v ∉ ordering t;
  inv_nodup : NoDup (ordering t);
  inv_univ : marked t ⊆ U;
  inv_topo : cycle t = None →
             ∀ v w, v ∈ ordering t → edge g v w → before w v (ordering t);
  inv_cycle : ∀ c, cycle t = Some c → is_cycle g c
}.

(** What a call leaves behind. *)
Definition post (g : Graph) (U : gset string) (stk : list string)
    (t t' : TopologicalSorter) : Prop :=
  inv g U stk t' ∧ marked t ⊆ marked t' ∧
  (∃ l, ordering t' = ordering t ++ l) ∧
  (cycle t' = None → cycle t = None).

(** The contract of [dfs] for a recursive call with enough fuel. *)
Definition dfs_ok (g : Graph) (U : gset string) (f : nat)
    (recur : string → TopologicalSorter → option TopologicalSorter) : Prop :=
  ∀ v t stk,
    inv g U stk t → v ∉ marked t → v ∈ U → chain g (edgeTo t) (v :: stk) →
    size (U ∖ marked t) ≤ f →
    ∃ t', recur v t = Some t' ∧ post g U stk t t' ∧ v ∈ marked t'.

(** What the proof that the cycle is simple asks of a recursive call. *)
Definition recur_simple (g : Graph) (U : gset string) (f : nat)
    (recur : string → TopologicalSorter → option TopologicalSorter) : Prop :=
  ∀ v t stk t',
    inv g U stk t → v ∉ marked t → v ∈ U → chain g (edgeTo t) (v :: stk) →
    size (U ∖ marked t) ≤ f → recur v t = Some t' → cycle_kept_or_simple t t'.

(** Reduces the field accesses on updated sorter states, and nothing else. *)
Ltac fields :=
  cbn [marked ordering onStack edgeTo cycle set_marked set_onStack
       delete_onStack set_edgeTo set_cycle push_ordering] in *.

(** The loop of [buildGraph] over the dependencies of one equation. *)
Definition add_dependencies (exprName : string) (deps : list string) (g : Graph) : Graph :=
  foldl (fun graph dep => addEdge exprName dep (addVertex dep graph)) g deps.

(** The body of the loop of [buildGraph] over the equations. *)
Definition add_equation (g : Graph) (eq : string * string) : Graph :=
  add_dependencies eq.1 (tokens eq.2) (addVertex eq.1 g).

(** * Properties *)

(** ** The depth-first search *)

Lemma walk_tc g a l b : walk g (a :: l) → last l = Some b → tc (edge g) a b.
Proof.
  revert a. induction l as [|x l IH]; intros a Hw Hl; [done|].
  destruct Hw as [Hax Hw]. destruct l as [|y l].
  - simpl in Hl. injection Hl as ->. by apply tc_once.
  - eapply tc_l; [exact Hax|]. apply IH; [exact Hw|]. exact Hl.
Qed.

Lemma is_cycle_cyclic g c : is_cycle g c → cyclic g.
Proof.
  intros (w & l & -> & Hl & Hw). exists w. by eapply walk_tc.
Qed.

Lemma chain_tail g eT v stk : chain g eT (v :: stk) → chain g eT stk.
Proof. destruct stk; [done|]. by intros (_ & _ & ?). Qed.

Lemma chain_insert g eT w v stk :
  w ∉ stk → chain g eT stk → chain g (<[w := v]> eT) stk.
Proof.
  induction stk as [|a stk IH]; [done|].
  intros Hw Hc. destruct stk as [|b stk]; [done|].
  destruct Hc as (Ha & Hab & Hc).
  apply not_elem_of_cons in Hw as [Hwa Hw].
  split_and!; [by rewrite lookup_insert_ne | done | by apply IH].
Qed.

Lemma unwind_spec g eT w stk :
  ∀ x y acc fuel,
    chain g eT (x :: stk) → w ∈ x :: stk → length stk ≤ fuel →
    walk g (y :: acc) → edge g x y → last (y :: acc) = Some w →
    ∃ cyc, unwind fuel eT w x (y :: acc) = Some cyc ∧ is_cycle g (w :: cyc).
Proof.
  assert (Hdone : ∀ x y acc fuel, x = w →
            walk g (y :: acc) → edge g x y → last (y :: acc) = Some w →
            ∃ cyc, unwind fuel eT w x (y :: acc) = Some cyc ∧ is_cycle g (w :: cyc)).
  { intros x y acc fuel -> Hw Hxy Hl. exists (y :: acc). split.
    - destruct fuel; simpl; by rewrite decide_True.
    - exists w, (y :: acc). done. }
  induction stk as [|x' stk IH]; intros x y acc fuel Hc Hin Hf Hw Hxy Hl.
  - apply list_elem_of_singleton in Hin. by apply Hdone.
  - destruct (decide (x = w)) as [Heq|Hne]; [by apply Hdone|].
    apply elem_of_cons in Hin as [Heq|Hin]; [done|].
    destruct fuel as [|fuel]; [simpl in Hf; lia|].
    destruct Hc as (Hx & Hx'x & Hc).
    simpl. rewrite decide_False by done. rewrite Hx.
    apply (IH x' x (y :: acc) fuel); try done.
      simpl in Hf. lia.
Qed.

Lemma before_app_l w v l l' : before w v l → before w v (l ++ l').
Proof.
  intros (i & j & Hij & Hi & Hj). exists i, j.
  split_and!; [done|by apply lookup_app_l_Some..].
Qed.

Lemma before_snoc w v l : w ∈ l → before w v (l ++ [v]).
Proof.
  intros [i Hi]%list_elem_of_lookup_1. exists i, (length l).
  pose proof (lookup_lt_Some _ _ _ Hi).
  split_and!; [done|by apply lookup_app_l_Some|].
  by rewrite list_lookup_middle.
Qed.

Section dfs_correct.
Variable g : Graph.
Variable U : gset string.
Hypothesis U_edge : ∀ v w, edge g v w → w ∈ U.

Lemma post_refl stk t : inv g U stk t → post g U stk t t.
Proof. intros ?. split_and!; [done..|by exists []; rewrite app_nil_r|done]. Qed.

Lemma post_trans stk t1 t2 t3 : post g U stk t1 t2 → post g U stk t2 t3 → post g U stk t1 t3.
Proof.
  intros (_ & Hm1 & [l1 Hl1] & Hc1) (Hi & Hm2 & [l2 Hl2] & Hc2).
  split_and!; [done|set_solver| |auto].
  exists (l1 ++ l2). by rewrite Hl2, Hl1, app_assoc.
Qed.

Lemma size_unmarked_mono (t t' : TopologicalSorter) f :
  marked t ⊆ marked t' → size (U ∖ marked t) ≤ f → size (U ∖ marked t') ≤ f.
Proof.
  intros Hm Hf. etrans; [|exact Hf]. apply subseteq_size. set_solver.
Qed.

Lemma visit_spec f recur v stk w t :
  dfs_ok g U f recur → inv g U (v :: stk) t → edge g v w →
  size (U ∖ marked t) ≤ f →
  ∃ t', visit recur v w t = Some t' ∧ post g U (v :: stk) t t' ∧
        (cycle t' = None → w ∈ ordering t').
Proof.
  intros Hrec Hinv Hvw Hf. unfold visit.
  destruct (cycle t) as [c|] eqn:Hcyc.
  { exists t. split_and!; [done|by apply post_refl|congruence]. }
  assert (Hstk : ∀ x, x ∈ v :: stk → x ∈ marked t).
  { intros x Hx. rewrite (inv_marked _ _ _ _ Hinv), (inv_stack _ _ _ _ Hinv).
    set_solver. }
  destruct (decide (w ∉ marked t)) as [Hw|Hw].
  - assert (Hwstk : w ∉ v :: stk) by (intros ?; apply Hw; auto).
    destruct (Hrec w (set_edgeTo w v t) (v :: stk)) as (t' & Ht' & Hpost & Hwm).
    + destruct Hinv. constructor; fields; try done. by apply chain_insert.
    + done.
    + by eapply U_edge.
    + fields. split_and!; [by rewrite lookup_insert_eq|done|].
      apply chain_insert; [done|]. by destruct Hinv.
    + done.
    + exists t'. split; [done|]. split; [exact Hpost|].
      intros _. destruct Hpost as (Hinv' & _).
      rewrite (inv_marked _ _ _ _ Hinv'), (inv_stack _ _ _ _ Hinv') in Hwm.
      set_solver.
  - apply dec_stable in Hw.
    destruct (decide (w ∈ onStack t)) as [Hon|Hon].
    + destruct (unwind_spec g (edgeTo t) w stk v w [] (size (onStack t)))
        as (cyc & -> & Hcyc'); try done.
      * by destruct Hinv.
      * rewrite (inv_stack _ _ _ _ Hinv) in Hon. set_solver.
      * rewrite (inv_stack _ _ _ _ Hinv), size_list_to_set
          by (by destruct Hinv).
        simpl. lia.
      * exists (set_cycle (w :: cyc) t). split; [done|]. split.
        -- split_and!; fields; [|done|by exists []; rewrite app_nil_r|done].
           destruct Hinv. constructor; fields; try done.
           intros c [= <-]. done.
        -- fields. done.
    + exists t. split_and!; [done|by apply post_refl|].
      intros _. rewrite (inv_marked _ _ _ _ Hinv) in Hw. set_solver.
Qed.

Lemma forEach_visit_spec f recur v stk ws :
  dfs_ok g U f recur → ∀ t,
  (∀ w, w ∈ ws → edge g v w) → inv g U (v :: stk) t →
  size (U ∖ marked t) ≤ f →
  ∃ t', forEach ws (visit recur v) t = Some t' ∧ post g U (v :: stk) t t' ∧
        (cycle t' = None → ∀ w, w ∈ ws → w ∈ ordering t').
Proof.
  intros Hrec. induction ws as [|w ws IH]; intros t Hws Hinv Hf.
  { exists t. split_and!; [done|by apply post_refl|]. intros _ w Hw.
    by apply elem_of_nil in Hw. }
  destruct (visit_spec f recur v stk w t) as (t1 & Ht1 & Hp1 & Hw1); try done.
  { apply Hws. by left. }
  destruct (IH t1) as (t2 & Ht2 & Hp2 & Hw2).
  { intros w' Hw'. apply Hws. by right. }
  { by destruct Hp1. }
  { eapply size_unmarked_mono; [|exact Hf]. by destruct Hp1 as (_ & ? & _). }
  exists t2. split; [by simpl; rewrite Ht1|]. split; [by eapply post_trans|].
  intros Hc w' [-> |Hw']%elem_of_cons; [|by apply Hw2].
  destruct Hp2 as (_ & _ & [l Hl] & Hc2). rewrite Hl.
  apply elem_of_app. left. auto.
Qed.

Lemma dfs_spec f : dfs_ok g U f (dfs f g).
Proof.
  induction f as [|f IH]; intros v t stk Hinv Hv HvU Hch Hf.
  { assert (U ∖ marked t ≡ ∅) as He by (apply size_empty_iff; lia).
    set_solver. }
  set (t0 := set_onStack v (set_marked v t)).
  assert (Hvstk : v ∉ stk).
  { intros Hin. apply Hv.
    rewrite (inv_marked _ _ _ _ Hinv), (inv_stack _ _ _ _ Hinv). set_solver. }
  assert (Hinv0 : inv g U (v :: stk) t0).
  { destruct Hinv. subst t0. constructor; fields; try done.
    - set_solver.
    - set_solver.
    - by constructor.
    - intros x Hx Hord. apply elem_of_union in Hx as [Hx|Hx]; [|by eapply inv_disj0].
      apply elem_of_singleton in Hx as ->. apply Hv. set_solver.
    - set_solver. }
  assert (Hf0 : size (U ∖ marked t0) ≤ f).
  { subst t0; fields.
    assert (U ∖ marked t = {[v]} ∪ U ∖ ({[v]} ∪ marked t)) as Heq.
    { apply set_eq. intros x. destruct (decide (x = v)); set_solver. }
    rewrite Heq, size_union, size_singleton in Hf by set_solver. lia. }
  destruct (forEach_visit_spec f (dfs f g) v stk (getAdjacencyList g v) IH t0)
    as (t1 & Ht1 & (Hinv1 & Hm1 & [l Hl] & Hc1) & Hadj); try done.
  exists (push_ordering v (delete_onStack v t1)).
  split; [by simpl; fold t0; rewrite Ht1|].
  assert (Hon1 : onStack t1 = {[v]} ∪ list_to_set stk).
  { by rewrite (inv_stack _ _ _ _ Hinv1). }
  subst t0; fields.
  split; [|set_solver]. split_and!; fields.
  - destruct Hinv1. constructor; fields.
    + rewrite inv_marked0, list_to_set_app_L, Hon1. set_solver.
    + rewrite Hon1. set_solver.
    + by apply NoDup_cons in inv_stack_nodup0 as [_ ?].
    + by eapply chain_tail.
    + intros x Hx Hord. apply elem_of_difference in Hx as [Hx Hxv].
      apply elem_of_app in Hord as [Hord|Hord]; [by eapply inv_disj0|].
      set_solver.
    + apply NoDup_app. split_and!; [done| |apply NoDup_singleton].
      intros x Hx ->%list_elem_of_singleton. eapply inv_disj0; [|done]. set_solver.
    + done.
    + intros Hc x w [Hx| ->%list_elem_of_singleton]%elem_of_app Hxw.
      * apply before_app_l. by apply inv_topo0.
      * apply before_snoc. by apply Hadj.
    + done.
  - set_solver.
  - exists (l ++ [v]). by rewrite Hl, app_assoc.
  - done.
Qed.

(** The loop of the constructor over the vertices. *)
Lemma forEach_vertices_spec f vs :
  size U ≤ f → ∀ t,
  (∀ v, v ∈ vs → v ∈ U) → inv g U [] t →
  ∃ t', forEach vs (fun vertex t =>
                      if decide (vertex ∉ marked t) then dfs f g vertex t else Some t) t
        = Some t' ∧ post g U [] t t' ∧ ∀ v, v ∈ vs → v ∈ marked t'.
Proof.
  intros Hf. induction vs as [|v vs IH]; intros t Hvs Hinv.
  { exists t. split_and!; [done|by apply post_refl|]. intros v Hv.
    by apply elem_of_nil in Hv. }
  assert (∃ t1, (if decide (v ∉ marked t) then dfs f g v t else Some t) = Some t1
                ∧ post g U [] t t1 ∧ v ∈ marked t1) as (t1 & Ht1 & Hp1 & Hv1).
  { destruct (decide (v ∉ marked t)) as [Hv|Hv].
    - apply dfs_spec; try done.
      + apply Hvs. by left.
      + etrans; [|exact Hf]. apply subseteq_size. set_solver.
    - apply dec_stable in Hv. exists t. split_and!; [done|by apply post_refl|done]. }
  destruct (IH t1) as (t2 & Ht2 & Hp2 & Hv2).
  { intros w Hw. apply Hvs. by right. }
  { by destruct Hp1. }
  exists t2. split; [by simpl; rewrite Ht1|]. split; [by eapply post_trans|].
  intros w [-> |Hw]%elem_of_cons; [|by apply Hv2].
  destruct Hp2 as (_ & ? & _). set_solver.
Qed.

End dfs_correct.

(** ** The sorter as a whole *)

Lemma universe_vertices g v : v ∈ vertices g → v ∈ universe g.
Proof. unfold universe. set_solver. Qed.

Lemma universe_edge g v w : edge g v w → w ∈ universe g.
Proof.
  unfold edge, getAdjacencyList, universe. intros Hw.
  destruct (adj g !! v) as [l|] eqn:Hl; [|by apply elem_of_nil in Hw].
  apply elem_of_union. right. apply elem_of_union_list.
  exists (list_to_set l). split; [|set_solver].
  apply list_elem_of_fmap. exists (v, l). split; [done|].
  by apply elem_of_map_to_list.
Qed.

Lemma init_inv g U : inv g U [] init_TopologicalSorter.
Proof.
  constructor; simpl; try done; try apply NoDup_nil_2.
  intros _ v w Hv. by apply elem_of_nil in Hv.
Qed.

(** The constructor returns, and leaves a state in which nothing is on the
    stack and every vertex is in the ordering. *)
Lemma sorter_runs g :
  ∃ t, new_TopologicalSorter g = Some t ∧ inv g (universe g) [] t ∧
       ∀ v, v ∈ vertices g → v ∈ ordering t.
Proof.
  destruct (forEach_vertices_spec g (universe g) (universe_edge g)
              (S (size (universe g))) (getVertices g) ltac:(lia)
              init_TopologicalSorter) as (t & Ht & (Hinv & _) & Hv).
  - intros v. apply universe_vertices.
  - apply init_inv.
  - exists t. split_and!; [done..|]. intros v Hin. specialize (Hv v Hin).
    rewrite (inv_marked _ _ _ _ Hinv), (inv_stack _ _ _ _ Hinv) in Hv.
    set_solver.
Qed.

Lemma before_trans l u v w :
  NoDup l → before u v l → before v w l → before u w l.
Proof.
  intros Hnd (i & j & Hij & Hi & Hj) (i' & j' & Hij' & Hi' & Hj').
  assert (j = i') as -> by (by eapply NoDup_lookup).
  exists i, j'. split_and!; [lia|done..].
Qed.

Lemma before_irrefl l v : NoDup l → ¬ before v v l.
Proof.
  intros Hnd (i & j & Hij & Hi & Hj).
  assert (i = j) by (by eapply NoDup_lookup). lia.
Qed.

(** An ordering that puts the target of every edge before its source
    leaves no room for a cycle. *)
Lemma topological_acyclic g l :
  NoDup l → (∀ v w, edge g v w → before w v l) → ¬ cyclic g.
Proof.
  intros Hnd Htopo [v Hv].
  assert (∀ a b, tc (edge g) a b → before b a l) as Htc.
  { induction 1 as [a b Hab|a b c Hab _ IH]; [by apply Htopo|].
    eapply before_trans; [done|exact IH|by apply Htopo]. }
  by eapply before_irrefl, Htc.
Qed.

Lemma sorter_sound g t c :
  new_TopologicalSorter g = Some t → cycle t = Some c → is_cycle g c.
Proof.
  intros Ht Hc. destruct (sorter_runs g) as (t' & Ht' & Hinv & _).
  assert (t' = t) as -> by congruence. by eapply inv_cycle.
Qed.

Lemma sorter_topological g t :
  closed g → new_TopologicalSorter g = Some t → cycle t = None →
  NoDup (ordering t) ∧ ∀ v w, edge g v w → before w v (ordering t).
Proof.
  intros Hcl Ht Hc. destruct (sorter_runs g) as (t' & Ht' & Hinv & Hall).
  assert (t' = t) as -> by congruence.
  split; [by destruct Hinv|]. intros v w Hvw.
  apply (inv_topo _ _ _ _ Hinv Hc v w); [|done].
  apply Hall. by destruct (Hcl v w Hvw).
Qed.

(** The search finds a cycle exactly when the graph has one. *)
Lemma sorter_cycle_iff g t :
  closed g → new_TopologicalSorter g = Some t →
  (cycle t ≠ None ↔ cyclic g).
Proof.
  intros Hcl Ht. split.
  - destruct (cycle t) as [c|] eqn:Hc; [|done]. intros _.
    eapply is_cycle_cyclic, sorter_sound; done.
  - intros Hcyc Hc. destruct (sorter_topological g t) as [Hnd Htopo]; try done.
    by eapply topological_acyclic.
Qed.

(** ** The pattern *)

Module RegExpFacts.
Import RegExp.

#[local] Arguments is_upper : simpl never.
#[local] Arguments is_word : simpl never.
#[local] Arguments is_open_paren : simpl never.

Lemma is_upper_word c : is_upper c = true → is_word c = true.
Proof. unfold is_word. by intros ->. Qed.

Lemma upper_run_app s u r :
  upper_run s = (u, r) → s = u ++ r ∧ forallb is_upper u = true.
Proof.
  revert u r. induction s as [|c s IH]; intros u r; simpl.
  - by intros [= <- <-].
  - destruct (is_upper c) eqn:Hc.
    + destruct (upper_run s) as [u' r'] eqn:Hs. intros [= <- <-].
      destruct (IH u' r' eq_refl) as [-> Hu]. simpl. by rewrite Hc, Hu.
    + by intros [= <- <-].
Qed.

Lemma upper_run_rest s u r :
  upper_run s = (u, r) → match r with d :: _ => is_upper d = false | [] => True end.
Proof.
  revert u r. induction s as [|c s IH]; intros u r; simpl.
  - by intros [= <- <-].
  - destruct (is_upper c) eqn:Hc.
    + destruct (upper_run s) as [u' r'] eqn:Hs. intros [= <- <-]. by eapply IH.
    + by intros [= <- <-].
Qed.

(** A run of upper-case letters followed by something else is the
    longest run. *)
Lemma upper_run_intro u r :
  forallb is_upper u = true →
  match r with d :: _ => is_upper d = false | [] => True end →
  upper_run (u ++ r) = (u, r).
Proof.
  intros Hu Hr. induction u as [|c u IH]; simpl in *.
  - destruct r as [|d r]; simpl; [done|]. by rewrite Hr.
  - apply andb_prop in Hu as [-> Hu]. by rewrite IH.
Qed.

(** Backtracking never helps: giving a letter back leaves the position
    between two letters, where [\b] fails. *)
Lemma upper_plus_tail_spec last rest :
  is_upper last = true →
  upper_plus_tail last rest =
    let '(u, r) := upper_run rest in if ends_ok r then Some (u, r) else None.
Proof.
  revert last. induction rest as [|c rest IH]; intros last Hlast.
  - simpl. unfold tail_matches, word_boundary. simpl.
    by rewrite (is_upper_word _ Hlast).
  - simpl. destruct (is_upper c) eqn:Hc.
    + rewrite (IH c Hc). destruct (upper_run rest) as [u r].
      destruct (ends_ok r); [done|].
      unfold tail_matches, word_boundary. simpl.
      by rewrite (is_upper_word _ Hlast), (is_upper_word _ Hc).
    + unfold tail_matches, word_boundary. simpl.
      rewrite (is_upper_word _ Hlast). simpl.
      destruct (is_word c), (is_open_paren c); done.
Qed.

Lemma match_at_spec prev s :
  match_at prev s =
    if prev_word prev then None
    else match upper_run s with
         | ([], _) => None
         | (u, r) => if ends_ok r then Some (u, r) else None
         end.
Proof.
  unfold match_at, word_boundary, prev_word.
  destruct s as [|c rest]; simpl.
  { by destruct (from_option is_word false prev). }
  destruct (is_upper c) eqn:Hc.
  - rewrite (is_upper_word _ Hc).
    destruct (from_option is_word false prev); simpl; [done|].
    rewrite (upper_plus_tail_spec _ _ Hc).
    destruct (upper_run rest) as [u r]. by destruct (ends_ok r).
  - destruct (from_option is_word false prev), (is_word c); done.
Qed.

Lemma match_at_Some prev s tok r :
  match_at prev s = Some (tok, r) →
  s = tok ++ r ∧ tok ≠ [] ∧ forallb is_upper tok = true ∧
  prev_word prev = false ∧ ends_ok r = true.
Proof.
  rewrite match_at_spec. destruct (prev_word prev); [done|].
  destruct (upper_run s) as [u r'] eqn:Hrun.
  destruct (upper_run_app _ _ _ Hrun) as [-> Hu].
  destruct u as [|c u]; [intros ?; discriminate|].
  destruct (ends_ok r') eqn:He; [|intros ?; discriminate].
  by intros [= <- <-].
Qed.

Lemma ctx_nil prev : ctx prev [] = prev.
Proof. done. Qed.

Lemma ctx_cons prev c pre : ctx prev (c :: pre) = ctx (Some c) pre.
Proof. unfold ctx. rewrite last_cons. by destruct (last pre). Qed.

Lemma ctx_app prev a pre : ctx prev (a ++ pre) = ctx (ctx prev a) pre.
Proof.
  revert prev. induction a as [|c a IH]; intros prev; [done|].
  by rewrite <- app_comm_cons, !ctx_cons, IH.
Qed.

Lemma ctx_last prev tok : tok ≠ [] → ctx prev tok = last tok.
Proof.
  unfold ctx. destruct (last tok) eqn:Hl; [done|].
  apply last_None in Hl. done.
Qed.

(** Passing over the characters of a match. *)
Lemma exec_skip prev a r :
  exec_global prev (length a) (a ++ r) = exec_global (ctx prev a) 0 r.
Proof.
  revert prev. induction a as [|c a IH]; intros prev; [done|].
  simpl. by rewrite IH, ctx_cons.
Qed.

Lemma exec_text prev c rest :
  match_at prev (c :: rest) = None →
  exec_global prev 0 (c :: rest) = Text c :: exec_global (Some c) 0 rest.
Proof. simpl. by intros ->. Qed.

Lemma exec_match prev s tok r :
  match_at prev s = Some (tok, r) →
  exec_global prev 0 s = Match tok :: exec_global (last tok) 0 r.
Proof.
  intros Hm. destruct (match_at_Some _ _ _ _ Hm) as (-> & Hne & _).
  destruct tok as [|c m]; [done|].
  rewrite <- app_comm_cons in *. cbn [exec_global]. rewrite Hm.
  f_equal. replace (length (c :: m) - 1) with (length m) by (simpl; lia).
  rewrite exec_skip. by rewrite <- (ctx_cons None), ctx_last.
Qed.

(** Induction along the successive attempts of the global pattern. *)
Lemma exec_ind (P : option ascii → chars → list piece → Prop) :
  (∀ prev, P prev [] []) →
  (∀ prev c rest,
     match_at prev (c :: rest) = None →
     P (Some c) rest (exec_global (Some c) 0 rest) →
     P prev (c :: rest) (Text c :: exec_global (Some c) 0 rest)) →
  (∀ prev tok r,
     match_at prev (tok ++ r) = Some (tok, r) →
     P (last tok) r (exec_global (last tok) 0 r) →
     P prev (tok ++ r) (Match tok :: exec_global (last tok) 0 r)) →
  ∀ prev s, P prev s (exec_global prev 0 s).
Proof.
  intros Hnil Htext Hmatch prev s.
  remember (length s) as n eqn:Hn. revert prev s Hn.
  induction n as [n IH] using lt_wf_ind. intros prev s ->.
  destruct s as [|c rest]; [apply Hnil|].
  destruct (match_at prev (c :: rest)) as [[tok r]|] eqn:Hm.
  - rewrite (exec_match _ _ _ _ Hm).
    destruct (match_at_Some _ _ _ _ Hm) as (Hs & Hne & _).
    rewrite Hs in *. apply Hmatch; [done|].
    apply (IH (length r)); [|done].
    rewrite length_app. destruct tok; [done|simpl; lia].
  - rewrite (exec_text _ _ _ Hm). apply Htext; [done|].
    apply (IH (length rest)); [simpl; lia|done].
Qed.

Lemma text_exec prev s : text (exec_global prev 0 s) = s.
Proof.
  apply (exec_ind (fun _ s ps => text ps = s)); clear prev s.
  - done.
  - intros prev c rest _ IH. unfold text in *. simpl. by rewrite IH.
  - intros prev tok r _ IH. unfold text in *. simpl. by rewrite IH.
Qed.

Lemma match_at_iff prev tok post :
  match_at prev (tok ++ post) = Some (tok, post) ↔
  prev_word prev = false ∧ tok ≠ [] ∧ forallb is_upper tok = true ∧
  ends_ok post = true.
Proof.
  split.
  - intros Hm. by destruct (match_at_Some _ _ _ _ Hm) as (_ & ? & ? & ? & ?).
  - intros (Hp & Hne & Hu & He). rewrite match_at_spec, Hp.
    rewrite (upper_run_intro tok post Hu).
    + destruct tok; [done|]. by rewrite He.
    + destruct post as [|d post]; [done|]. simpl in He.
      destruct (is_upper d) eqn:Hd; [|done].
      by rewrite (is_upper_word _ Hd) in He.
Qed.

(** Every match the global pattern reports is a match of the pattern at
    its position. *)
Lemma exec_match_at prev s ps1 tok ps2 :
  exec_global prev 0 s = ps1 ++ Match tok :: ps2 →
  match_at (ctx prev (text ps1)) (tok ++ text ps2) = Some (tok, text ps2).
Proof.
  revert ps1 tok ps2.
  apply (exec_ind (fun prev s ps => ∀ ps1 tok ps2,
    ps = ps1 ++ Match tok :: ps2 →
    match_at (ctx prev (text ps1)) (tok ++ text ps2) = Some (tok, text ps2)));
    clear prev s.
  - intros prev ps1 tok ps2 H. by destruct ps1.
  - intros prev c rest _ IH ps1 tok ps2 H.
    destruct ps1 as [|p ps1]; [done|]. injection H as <- H.
    unfold text at 1. simpl. rewrite ctx_cons. by apply IH.
  - intros prev tok0 r Hm IH ps1 tok ps2 H.
    destruct (match_at_Some _ _ _ _ Hm) as (_ & Hne & _).
    destruct ps1 as [|p ps1].
    + injection H as <- <-. rewrite text_exec. exact Hm.
    + injection H as <- H. unfold text at 1. simpl.
      rewrite ctx_app, (ctx_last prev tok0) by done. by apply IH.
Qed.

(** Every position at which the pattern matches is reported, unless an
    earlier match covers it; that cannot be, as the position would then
    follow a letter. *)
Lemma match_at_exec pre : ∀ prev tok post,
  match_at (ctx prev pre) (tok ++ post) = Some (tok, post) →
  ∃ ps1 ps2, exec_global prev 0 (pre ++ tok ++ post) = ps1 ++ Match tok :: ps2 ∧
             text ps1 = pre ∧ text ps2 = post.
Proof.
  remember (length pre) as n eqn:Hn. revert pre Hn.
  induction n as [n IH] using lt_wf_ind. intros pre -> prev tok post Hm.
  destruct pre as [|c pre].
  { exists [], (exec_global (last tok) 0 post). simpl.
    split_and!; [by apply exec_match|done|by apply text_exec]. }
  destruct (match_at prev ((c :: pre) ++ tok ++ post)) as [[tok0 r]|] eqn:Hm0.
  - destruct (match_at_Some _ _ _ _ Hm0) as (Hs & Hne & Hu & _ & _).
    rewrite (exec_match _ _ _ _ Hm0).
    apply app_eq_inv in Hs as [(k & Hk & ->)|(k & -> & Hk)].
    + rewrite Hk, ctx_app, (ctx_last prev tok0) in Hm by done.
      destruct (IH (length k)) with (pre := k) (prev := last tok0)
        (tok := tok) (post := post) as (ps1 & ps2 & -> & <- & <-); [|done..|].
      { rewrite Hk, length_app. destruct tok0; [done|simpl; lia]. }
      exists (Match tok0 :: ps1), ps2. by rewrite Hk.
    + exfalso. destruct (match_at_Some _ _ _ _ Hm) as (_ & _ & _ & Hp & _).
      destruct (last (c :: pre)) as [x|] eqn:Hl; [|by apply last_None in Hl].
      unfold ctx, prev_word in Hp. rewrite Hl in Hp. simpl in Hp.
      apply last_Some_elem_of in Hl.
      rewrite forallb_forall in Hu. specialize (Hu x).
      rewrite is_upper_word in Hp; [done|]. apply Hu.
      apply list_elem_of_In, elem_of_app. by left.
  - rewrite <- app_comm_cons in *. rewrite (exec_text _ _ _ Hm0).
    rewrite ctx_cons in Hm.
    destruct (IH (length pre)) with (pre := pre) (prev := Some c)
      (tok := tok) (post := post) as (ps1 & ps2 & -> & <- & <-);
      [simpl; lia|done..|].
    by exists (Text c :: ps1), ps2.
Qed.

(** *** Texts without a match *)

Lemma match_at_ext p p' s : prev_word p = prev_word p' → match_at p s = match_at p' s.
Proof. intros H. by rewrite !match_at_spec, H. Qed.

Lemma text_app ps1 ps2 : text (ps1 ++ ps2) = text ps1 ++ text ps2.
Proof. unfold text, substitute. by rewrite flat_map_app. Qed.

Lemma quiet_no_match prev s :
  quiet prev s ↔ ∀ tok, Match tok ∉ exec_global prev 0 s.
Proof.
  split.
  - intros Hq tok (ps1 & ps2 & Hps)%list_elem_of_split.
    pose proof (exec_match_at _ _ _ _ _ Hps) as Hm.
    rewrite Hq in Hm; [done|].
    rewrite <- (text_exec prev s), Hps, text_app. done.
  - intros Hno l1 l2 -> .
    destruct (match_at (ctx prev l1) l2) as [[tok post]|] eqn:Hm; [|done].
    destruct (match_at_Some _ _ _ _ Hm) as (-> & _).
    destruct (match_at_exec l1 prev tok post Hm) as (ps1 & ps2 & Hps & _).
    exfalso. apply (Hno tok). rewrite Hps. apply elem_of_app. right. by left.
Qed.

Lemma quiet_cons prev c s :
  match_at prev (c :: s) = None → quiet (Some c) s → quiet prev (c :: s).
Proof.
  intros Hm Hq l1 l2 Hs. destruct l1 as [|c' l1].
  - simpl in Hs. by subst l2.
  - injection Hs as <- ->. rewrite ctx_cons. by apply Hq.
Qed.

Lemma match_at_apart p s : starts_apart s → match_at p s = None.
Proof.
  intros Hs. rewrite match_at_spec. destruct (prev_word p); [done|].
  destruct s as [|d s]; [done|]. simpl in *.
  destruct (is_upper d) eqn:Hd; [|done].
  by rewrite (is_upper_word _ Hd) in Hs.
Qed.

Lemma match_at_None_app p k s :
  match_at p k = None → starts_apart s → match_at p (k ++ s) = None.
Proof.
  intros Hm Hs. destruct k as [|c k]; [by apply match_at_apart|].
  revert Hm. rewrite !match_at_spec. destruct (prev_word p); [done|].
  destruct (upper_run (c :: k)) as [u r] eqn:Hrun.
  destruct (upper_run_app _ _ _ Hrun) as [Hk Hu].
  pose proof (upper_run_rest _ _ _ Hrun) as Hr.
  destruct u as [|c' u].
  - intros _. simpl in Hk. subst r. simpl in *.
    by destruct (is_upper c).
  - destruct (ends_ok r) eqn:He; [done|]. intros _.
    destruct r as [|e r]; [done|].
    rewrite Hk, <- app_assoc.
    rewrite (upper_run_intro (c' :: u) ((e :: r) ++ s) Hu) by done.
    simpl. simpl in He. by rewrite He.
Qed.

Lemma quiet_app prev a s :
  prev_word prev = false → quiet None a → starts_apart s →
  (∀ p, quiet p s) → quiet prev (a ++ s).
Proof.
  intros Hp Ha Hs Hq l1 l2 Heq.
  apply app_eq_inv in Heq as [(k & -> & ->)|(k & -> & ->)].
  - apply match_at_None_app; [|done].
    rewrite (match_at_ext _ (ctx None l1)); [by apply Ha|].
    destruct l1 as [|c l1]; [done|]. by rewrite !ctx_cons.
  - rewrite ctx_app. apply Hq. done.
Qed.

(** With a word character before it, a text keeps its leading run of
    letters, and the character after the run, under substitution. *)
Lemma substitute_upper_run f s : ∀ prev u r,
  prev_word prev = true → upper_run s = (u, r) →
  ∃ x, substitute f (exec_global prev 0 s) = u ++ x ∧
       match r with [] => x = [] | d :: _ => ∃ x', x = d :: x' end.
Proof.
  induction s as [|c s IH]; intros prev u r Hp Hrun.
  { injection Hrun as <- <-. by exists []. }
  assert (match_at prev (c :: s) = None) as Hm
    by (by rewrite match_at_spec, Hp).
  rewrite (exec_text _ _ _ Hm). simpl in Hrun. simpl.
  destruct (is_upper c) eqn:Hc.
  - destruct (upper_run s) as [u' r'] eqn:Hs. injection Hrun as <- <-.
    destruct (IH (Some c) u' r') as (x & -> & Hx); [by apply is_upper_word|done|].
    by exists x.
  - injection Hrun as <- <-. eexists. split; [done|]. by eexists.
Qed.

(** Replacing every match by a text without a match leaves no match. *)
Lemma substitute_quiet f prev s :
  (∀ tok, quiet None (f tok)) →
  quiet prev (substitute f (exec_global prev 0 s)).
Proof.
  intros Hf.
  apply (exec_ind (fun prev s ps => quiet prev (substitute f ps))); clear prev s.
  - intros prev l1 l2 Hs. symmetry in Hs. apply app_eq_nil in Hs as [-> ->].
    by rewrite match_at_spec; destruct (prev_word _).
  - intros prev c rest Hm IH. simpl. apply quiet_cons; [|done].
    revert Hm. rewrite !match_at_spec. destruct (prev_word prev); [done|].
    simpl. destruct (is_upper c) eqn:Hc; [|done].
    destruct (upper_run rest) as [u r] eqn:Hrun.
    destruct (substitute_upper_run f rest (Some c) u r) as (x & -> & Hx);
      [by apply is_upper_word|done|].
    destruct (upper_run_app _ _ _ Hrun) as [_ Hu].
    pose proof (upper_run_rest _ _ _ Hrun) as Hr.
    destruct (ends_ok r) eqn:He; [done|]. intros _.
    destruct r as [|d r]; [done|]. destruct Hx as [x' ->].
    rewrite (upper_run_intro u (d :: x') Hu Hr). simpl. simpl in He. by rewrite He.
  - intros prev tok r Hm IH. simpl.
    destruct (match_at_Some _ _ _ _ Hm) as (_ & Hne & Hu & Hp & He).
    assert (prev_word (last tok) = true) as Hlast.
    { destruct (last tok) as [x|] eqn:Hl; [|by apply last_None in Hl].
      simpl. apply is_upper_word. rewrite forallb_forall in Hu. apply Hu.
      apply list_elem_of_In. by apply last_Some_elem_of. }
    assert (starts_apart (substitute f (exec_global (last tok) 0 r))) as Hs.
    { destruct r as [|d r]; [done|].
      rewrite exec_text by (by rewrite match_at_spec, Hlast).
      simpl. simpl in He. by destruct (is_word d). }
    apply quiet_app; [done|by apply Hf|done|].
    intros p l1 l2 Heq. destruct l1 as [|c l1].
    + simpl in Heq. subst l2. by apply match_at_apart.
    + rewrite ctx_cons, <- (ctx_cons (last tok)). by apply IH.
Qed.

(** *** A text cut at a token *)

Lemma upper_run_app_apart s rest u r :
  s ≠ [] → (∀ x, last s = Some x → is_upper x = false) →
  upper_run s = (u, r) → r ≠ [] ∧ upper_run (s ++ rest) = (u, r ++ rest).
Proof.
  revert u r. induction s as [|c s IH]; intros u r Hne Hlast; [done|].
  rewrite <- app_comm_cons. cbn [upper_run]. destruct (is_upper c) eqn:Hc.
  - destruct s as [|c' s].
    { by rewrite (Hlast c) in Hc. }
    destruct (upper_run (c' :: s)) as [u' r'] eqn:Hs. intros [= <- <-].
    destruct (IH u' r') as [Hr ->]; [done| |done|done].
    intros x Hx. apply Hlast. by rewrite last_cons_cons.
  - by intros [= <- <-].
Qed.

Lemma ends_ok_app r rest : r ≠ [] → ends_ok (r ++ rest) = ends_ok r.
Proof. by destruct r. Qed.

(** An attempt made before a character that is not a letter does not see
    what follows that character. *)
Lemma match_at_app_apart prev s rest :
  s ≠ [] → (∀ x, last s = Some x → is_upper x = false) →
  match_at prev (s ++ rest) =
    match match_at prev s with
    | Some (tok, r) => Some (tok, r ++ rest)
    | None => None
    end.
Proof.
  intros Hne Hlast. rewrite !match_at_spec. destruct (prev_word prev); [done|].
  destruct (upper_run s) as [u r] eqn:Hrun.
  destruct (upper_run_app_apart s rest u r Hne Hlast Hrun) as [Hr ->].
  destruct u; [done|]. rewrite (ends_ok_app r rest Hr). by destruct (ends_ok r).
Qed.

(** The matches found in a text that does not end in a letter are found
    in it whatever follows, and the search goes on after it. *)
Lemma exec_app_apart rest prev s :
  (∀ x, last s = Some x → is_upper x = false) →
  exec_global prev 0 (s ++ rest) =
  exec_global prev 0 s ++ exec_global (ctx prev s) 0 rest.
Proof.
  apply (exec_ind (fun prev s ps =>
    (∀ x, last s = Some x → is_upper x = false) →
    exec_global prev 0 (s ++ rest) = ps ++ exec_global (ctx prev s) 0 rest));
    clear prev s.
  - done.
  - intros prev c s Hm IH Hlast.
    rewrite <- app_comm_cons, exec_text.
    + rewrite ctx_cons, IH; [done|].
      intros x Hx. apply Hlast. destruct s; [done|]. by rewrite last_cons_cons.
    + by rewrite app_comm_cons, match_at_app_apart, Hm.
  - intros prev tok r Hm IH Hlast.
    destruct (match_at_Some _ _ _ _ Hm) as (_ & Hne & Hu & Hp & He).
    assert (r ≠ []) as Hr.
    { intros ->. rewrite app_nil_r in Hlast.
      destruct (last tok) as [x|] eqn:Hl; [|by apply last_None in Hl].
      specialize (Hlast x eq_refl). rewrite forallb_forall in Hu.
      rewrite Hu in Hlast; [done|].
      apply list_elem_of_In. by apply last_Some_elem_of. }
    rewrite <- app_assoc.
    rewrite (exec_match prev (tok ++ r ++ rest) tok (r ++ rest)).
    2: { apply match_at_iff. split_and!; [done..|]. by rewrite ends_ok_app. }
    rewrite IH.
    2: { intros x Hx. apply Hlast. rewrite last_app. by rewrite Hx. }
    by rewrite ctx_app, (ctx_last prev tok).
Qed.

Lemma exec_apart prev prev' s :
  starts_apart s → exec_global prev 0 s = exec_global prev' 0 s.
Proof.
  intros Hs. destruct s as [|d s]; [done|].
  by rewrite !exec_text by (by apply match_at_apart).
Qed.

(** At a match, the text falls into what the pattern makes of the text
    before it, the match, and what the pattern makes of the text after it. *)
Lemma pieces_token pre tok post :
  match_at (ctx None pre) (tok ++ post) = Some (tok, post) →
  pieces (pre ++ tok ++ post) = pieces pre ++ Match tok :: pieces post.
Proof.
  intros Hm. destruct (match_at_Some _ _ _ _ Hm) as (_ & Hne & Hu & Hp & He).
  unfold pieces. rewrite exec_app_apart.
  - rewrite (exec_match _ _ _ _ Hm). do 2 f_equal. apply exec_apart.
    destruct post as [|d post]; [done|]. simpl in *. by destruct (is_word d).
  - intros x Hx. unfold ctx, prev_word in Hp. rewrite Hx in Hp. simpl in Hp.
    destruct (is_upper x) eqn:Hux; [|done]. by rewrite (is_upper_word _ Hux) in Hp.
Qed.

End RegExpFacts.

(** ** The graph *)

Lemma getAdjacencyList_addVertex x g v :
  getAdjacencyList (addVertex x g) v = getAdjacencyList g v.
Proof. done. Qed.

Lemma getAdjacencyList_addEdge a b g v :
  getAdjacencyList (addEdge a b g) v =
    if decide (v = a) then
      if decide (b ∈ getAdjacencyList g a) then getAdjacencyList g a
      else getAdjacencyList g a ++ [b]
    else getAdjacencyList g v.
Proof.
  unfold addEdge, getAdjacencyList. simpl.
  destruct (adj g !! a) as [l|] eqn:Hl; simpl.
  - rewrite Hl. simpl. destruct (decide (b ∈ l)); simpl.
    + destruct (decide (v = a)) as [->|]; [by rewrite Hl|done].
    + destruct (decide (v = a)) as [->|];
        [by rewrite lookup_insert_eq|by rewrite lookup_insert_ne].
  - rewrite lookup_insert_eq. simpl.
    destruct (decide (v = a)) as [->|].
    + by rewrite lookup_insert_eq.
    + by rewrite !lookup_insert_ne.
Qed.

Lemma vertices_addVertex x g v :
  v ∈ vertices (addVertex x g) ↔ v = x ∨ v ∈ vertices g.
Proof.
  unfold addVertex. simpl. destruct (decide (x ∈ vertices g)).
  - naive_solver.
  - rewrite elem_of_app, list_elem_of_singleton. naive_solver.
Qed.

Lemma edge_addVertex x g v w : edge (addVertex x g) v w ↔ edge g v w.
Proof. done. Qed.

Lemma edge_addEdge a b g v w :
  edge (addEdge a b g) v w ↔ edge g v w ∨ (v = a ∧ w = b).
Proof.
  unfold edge. rewrite getAdjacencyList_addEdge.
  destruct (decide (v = a)) as [->|]; [|naive_solver].
  destruct (decide (b ∈ getAdjacencyList g a)); [naive_solver|].
  rewrite elem_of_app, list_elem_of_singleton. naive_solver.
Qed.

Lemma buildGraph_unfold eqs :
  EquationResolver.buildGraph eqs = foldl add_equation new_Graph eqs.
Proof.
  unfold EquationResolver.buildGraph. generalize new_Graph.
  induction eqs as [|[n e] eqs IH]; intros g; [done|]. apply IH.
Qed.

Lemma add_dependencies_spec n deps : ∀ g,
  (∀ v, v ∈ vertices (add_dependencies n deps g) ↔ v ∈ vertices g ∨ v ∈ deps) ∧
  (∀ v w, edge (add_dependencies n deps g) v w ↔
          edge g v w ∨ (v = n ∧ w ∈ deps)).
Proof.
  induction deps as [|d deps IH]; intros g.
  { split; intros; rewrite ?elem_of_nil; naive_solver. }
  destruct (IH (addEdge n d (addVertex d g))) as [IHv IHe].
  split.
  - intros v. unfold add_dependencies in *. simpl. rewrite IHv.
    change (vertices (addEdge n d (addVertex d g))) with (vertices (addVertex d g)).
    rewrite vertices_addVertex, elem_of_cons. naive_solver.
  - intros v w. unfold add_dependencies in *. simpl. rewrite IHe.
    rewrite edge_addEdge, edge_addVertex, elem_of_cons. naive_solver.
Qed.

Lemma add_equation_closed g eq : closed g → closed (add_equation g eq).
Proof.
  intros Hcl v w. unfold add_equation.
  destruct (add_dependencies_spec eq.1 (tokens eq.2)
              (addVertex eq.1 g)) as [Hv He].
  rewrite He, !Hv, !vertices_addVertex, edge_addVertex.
  intros [Hvw|[-> Hw]]; [|naive_solver].
  destruct (Hcl v w Hvw). naive_solver.
Qed.

Lemma buildGraph_closed eqs : closed (EquationResolver.buildGraph eqs).
Proof.
  rewrite buildGraph_unfold.
  assert (∀ g, closed g → closed (foldl add_equation g eqs)) as H.
  { induction eqs as [|eq eqs IH]; intros g Hg; [done|].
    simpl. by apply IH, add_equation_closed. }
  apply H. intros v w Hvw. by apply elem_of_nil in Hvw.
Qed.

(** The edges of the built graph are the tokens of the expressions. *)
Lemma buildGraph_edge eqs v w :
  edge (EquationResolver.buildGraph eqs) v w ↔
  ∃ expr, (v, expr) ∈ eqs ∧ w ∈ tokens expr.
Proof.
  rewrite buildGraph_unfold.
  assert (∀ g, edge (foldl add_equation g eqs) v w ↔
               edge g v w ∨ ∃ expr, (v, expr) ∈ eqs ∧ w ∈ tokens expr)
    as H.
  { induction eqs as [|[n e] eqs IH]; intros g.
    - simpl. split; [by left|]. intros [?|(expr & Hin & _)]; [done|].
      by apply elem_of_nil in Hin.
    - simpl. rewrite IH. unfold add_equation at 1.
      destruct (add_dependencies_spec n (tokens e)
                  (addVertex n g)) as [_ He].
      simpl. rewrite He, edge_addVertex. split.
      + intros [[?|[-> ?]]|(expr & Hin & ?)]; [by left|right..].
        * exists e. split; [by left|done].
        * exists expr. split; [by right|done].
      + intros [?|(expr & [[= -> ->]|Hin]%elem_of_cons & ?)]; [by left; left|..].
        * left. by right.
        * right. by exists expr. }
  rewrite H. split; [|by right]. intros [Hvw|?]; [|done].
  by apply elem_of_nil in Hvw.
Qed.

(** ** The resolvers *)

(** What the constructor of [EquationResolver] stores. *)
Lemma EquationResolver_new_spec eqs :
  ∃ srt r,
    new_TopologicalSorter (EquationResolver.buildGraph eqs) = Some srt ∧
    EquationResolver.new_traced eqs = Some (r, [BuildGraph; Sort]) ∧
    EquationResolver.new eqs = Some r ∧
    EquationResolver.inputEquations r = eqs ∧
    EquationResolver.graphCycle r = cycle srt ∧
    EquationResolver.topologicalOrder r =
      match cycle srt with Some _ => None | None => Some (ordering srt) end.
Proof.
  destruct (sorter_runs (EquationResolver.buildGraph eqs)) as (srt & Hsrt & _).
  exists srt. unfold EquationResolver.new, EquationResolver.new_traced.
  rewrite Hsrt. unfold Sorter.getOrdering, Sorter.hasCycle, Sorter.getCycle.
  destruct (cycle srt) as [c|] eqn:Hc.
  - rewrite bool_decide_eq_true_2 by done. eexists. by split_and!.
  - rewrite bool_decide_eq_false_2 by (by intros []). eexists. by split_and!.
Qed.

Lemma EquationResolver_hasCycle eqs r :
  EquationResolver.new eqs = Some r →
  (EquationResolver.hasCycle r = true ↔ cyclic (EquationResolver.buildGraph eqs)).
Proof.
  intros Hr. destruct (EquationResolver_new_spec eqs)
    as (srt & r' & Hsrt & _ & Hr' & _ & Hc & _).
  assert (r' = r) as -> by congruence.
  rewrite <- (sorter_cycle_iff _ _ (buildGraph_closed eqs) Hsrt).
  unfold EquationResolver.hasCycle. rewrite Hc.
  destruct (cycle srt); naive_solver.
Qed.

(** What the constructor of [ExpressionResolver] stores. *)
Lemma ExpressionResolver_new_spec eqs :
  ∃ srt r,
    new_TopologicalSorter (EquationResolver.buildGraph eqs) = Some srt ∧
    ExpressionResolver.new eqs = Some r ∧
    ExpressionResolver.inputExpressions r = eqs ∧
    ExpressionResolver.graphHasCycle r = bool_decide (cycle srt ≠ None) ∧
    ExpressionResolver.graphCycle r = cycle srt ∧
    ExpressionResolver.topologicalOrder r =
      match cycle srt with Some _ => None | None => Some (ordering srt) end.
Proof.
  destruct (sorter_runs (EquationResolver.buildGraph eqs)) as (srt & Hsrt & _).
  exists srt. unfold ExpressionResolver.new.
  change (ExpressionResolver.buildGraph eqs) with (EquationResolver.buildGraph eqs).
  rewrite Hsrt. unfold Sorter.getOrdering, Sorter.hasCycle, Sorter.getCycle.
  destruct (cycle srt) as [c|] eqn:Hc.
  - rewrite bool_decide_eq_true_2 by done. eexists. by split_and!.
  - rewrite bool_decide_eq_false_2 by (by intros []). eexists. by split_and!.
Qed.


(** The loops of the two resolvers run alike. *)
Lemma expand_loops_agree input order : ∀ m0 w0,
  match forEachThrowing order (EquationResolver.expand input) (m0, w0) with
  | inl e => forEachThrowing order (ExpressionResolver.expand input) m0 = inl e
  | inr (m, _) => forEachThrowing order (ExpressionResolver.expand input) m0 = inr m
  end.
Proof.
  induction order as [|n order IH]; intros m0 w0; simpl; [done|].
  assert (ExpressionResolver.expand input n m0 =
          match get input n with
          | None => inl TypeError
          | Some expr =>
              inr (<[n := String_replace expr RegExp.pieces (fun exprVar => m0 !! exprVar)]> m0)
          end) as -> by done.
  destruct (get input n) as [expr|]; [|done]. apply IH.
Qed.

(** *** Expanded texts have no variable token *)

Lemma tokens_matches expr :
  tokens expr =
  string_of_list_ascii <$> RegExp.matches (RegExp.pieces (list_ascii_of_string expr)).
Proof.
  unfold tokens, String_match, EquationResolver.exprVarTokenRe.
  by destruct (RegExp.matches _).
Qed.

Lemma token_free_quiet str :
  token_free str ↔ RegExp.quiet None (list_ascii_of_string str).
Proof.
  unfold token_free. rewrite tokens_matches.
  assert (∀ l : list (list ascii), string_of_list_ascii <$> l = [] ↔ l = []) as ->
    by (by intros []).
  rewrite RegExpFacts.quiet_no_match.
  change (RegExp.exec_global None 0 (list_ascii_of_string str))
    with (RegExp.pieces (list_ascii_of_string str)).
  unfold RegExp.matches.
  destruct (omap _ (RegExp.pieces (list_ascii_of_string str))) as [|tok ms] eqn:Hm.
  - split; [|done]. intros _ tok Hin.
    assert (tok ∈ @nil (list ascii)) as H; [|by apply elem_of_nil in H].
    rewrite <- Hm. apply list_elem_of_omap. by exists (RegExp.Match tok).
  - split; [done|]. intros Hno. exfalso.
    assert (tok ∈ tok :: ms) as Hin by by left.
    rewrite <- Hm in Hin. apply list_elem_of_omap in Hin as ([c|tok'] & Hin & Heq);
      [done|]. injection Heq as ->. by apply (Hno tok).
Qed.

Lemma String_replace_token_free expr replacer :
  (∀ v e, replacer v = Some e → token_free e) →
  token_free (String_replace expr RegExp.pieces replacer).
Proof.
  intros Hf. apply token_free_quiet. unfold String_replace.
  rewrite list_ascii_of_string_of_list_ascii.
  apply RegExpFacts.substitute_quiet. intros tok. apply token_free_quiet.
  destruct (replacer _) as [e|] eqn:He; simpl; [by eapply Hf|done].
Qed.

Lemma expand_loop_token_free input order : ∀ m0 w0 m w,
  map_Forall (fun _ e => token_free e) m0 →
  forEachThrowing order (EquationResolver.expand input) (m0, w0) = inr (m, w) →
  map_Forall (fun _ e => token_free e) m.
Proof.
  induction order as [|n order IH]; intros m0 w0 m w Hm0; simpl.
  - by intros [= <- _].
  - destruct (get input n) as [expr|]; [|done].
    apply IH. apply map_Forall_insert_2; [|done].
    apply String_replace_token_free. intros v e Hv. by apply (Hm0 v).
Qed.

(** ** The token rule *)

Lemma is_open_paren_iff c : RegExp.is_open_paren c = true ↔ c = "("%char.
Proof.
  unfold RegExp.is_open_paren. rewrite Nat.eqb_eq. split; [|by intros ->].
  intros H. rewrite <- (ascii_nat_embedding c), H. done.
Qed.

(** The rule in words and the pattern at one position say the same. *)
Lemma is_variable_token_match_at pre tok post :
  is_variable_token pre tok post ↔
  RegExp.match_at (RegExp.ctx None pre) (tok ++ post) = Some (tok, post).
Proof.
  rewrite RegExpFacts.match_at_iff. unfold is_variable_token.
  assert (RegExp.prev_word (RegExp.ctx None pre) = false ↔
          ∀ c, last pre = Some c → RegExp.is_word c = false) as Hpre.
  { unfold RegExp.ctx, RegExp.prev_word.
    destruct (last pre) as [x|]; simpl; naive_solver. }
  assert (RegExp.ends_ok post = true ↔
          (∀ c, head post = Some c → RegExp.is_word c = false) ∧
          head post ≠ Some "("%char) as Hpost.
  { destruct post as [|d post]; simpl; [naive_solver|].
    rewrite andb_true_iff, !negb_true_iff. split.
    - intros [Hw Hp]. split; [by intros c [= <-]|]. intros [= ->].
      by vm_compute in Hp.
    - intros [Hw Hp]. split; [by apply Hw|].
      destruct (RegExp.is_open_paren d) eqn:Hd; [|done].
      apply is_open_paren_iff in Hd as ->. done. }
  assert (forallb RegExp.is_upper tok = true ↔
          Forall (fun c => RegExp.is_upper c = true) tok) as Hup.
  { rewrite forallb_forall, Forall_forall. by setoid_rewrite list_elem_of_In. }
  rewrite Hpre, Hpost, Hup. split.
  - intros (Hne & Hu & _ & Hw & Hp). split_and!; try done; intros c ?; apply Hw; auto.
  - intros (Hl & Hne & Hu & Hr & Hp).
    assert (∀ c, last pre = Some c ∨ head post = Some c → RegExp.is_word c = false)
      as Hw by (intros c [?|?]; auto).
    split_and!; try done. intros c Hc. specialize (Hw c Hc).
    destruct (RegExp.is_upper c) eqn:Hup'; [|done].
    by rewrite (RegExpFacts.is_upper_word _ Hup') in Hw.
Qed.

Lemma substitute_ext f f' ps :
  (∀ tok, RegExp.Match tok ∈ ps → f tok = f' tok) →
  RegExp.substitute f ps = RegExp.substitute f' ps.
Proof.
  induction ps as [|p ps IH]; intros Hf; [done|]. simpl.
  rewrite IH by (intros tok Hin; apply Hf; by right).
  destruct p as [c|tok]; [done|]. rewrite Hf; [done|by left].
Qed.

Lemma all_upper_of_list l :
  all_upper (string_of_list_ascii l) = forallb RegExp.is_upper l.
Proof. induction l as [|c l IH]; [done|]. simpl. by rewrite IH. Qed.

Lemma Match_in_pieces_tokens expr tok :
  RegExp.Match tok ∈ RegExp.pieces (list_ascii_of_string expr) ↔
  string_of_list_ascii tok ∈ tokens expr.
Proof.
  rewrite tokens_matches. split.
  - intros Hin. apply list_elem_of_fmap_2. apply list_elem_of_omap.
    by exists (RegExp.Match tok).
  - intros (tok' & Heq & Hin)%list_elem_of_fmap.
    apply list_elem_of_omap in Hin as ([c|tok''] & Hin & [= ->]).
    apply (f_equal list_ascii_of_string) in Heq.
    rewrite !list_ascii_of_string_of_list_ascii in Heq. by subst.
Qed.

Lemma String_replace_depends expr f f' :
  (∀ v, v ∈ tokens expr → f v = f' v) →
  String_replace expr RegExp.pieces f = String_replace expr RegExp.pieces f'.
Proof.
  intros Hf. unfold String_replace. f_equal.
  apply substitute_ext. intros tok Hin. do 2 f_equal. apply Hf.
  by apply Match_in_pieces_tokens.
Qed.

Lemma String_replace_Some expr : String_replace expr RegExp.pieces Some = expr.
Proof.
  unfold String_replace.
  rewrite <- (string_of_list_ascii_of_string expr) at 2. f_equal.
  rewrite <- (RegExpFacts.text_exec None (list_ascii_of_string expr)) at 2.
  apply substitute_ext. intros tok _. simpl.
  apply list_ascii_of_string_of_list_ascii.
Qed.

Lemma String_replace_unchanged expr replacer :
  token_free expr → String_replace expr RegExp.pieces replacer = expr.
Proof.
  intros Hfree. rewrite <- (String_replace_Some expr) at 2.
  apply String_replace_depends. intros v Hv. unfold token_free in Hfree.
  rewrite Hfree in Hv. by apply elem_of_nil in Hv.
Qed.

Lemma string_of_list_ascii_app l1 l2 :
  string_of_list_ascii (l1 ++ l2) = string_of_list_ascii l1 +:+ string_of_list_ascii l2.
Proof. induction l1 as [|c l1 IH]; [done|]. simpl. by rewrite IH. Qed.

(** The names extracted from an expression are the texts that stand in it
    as variable tokens. *)
Lemma tokens_rule expr v :
  v ∈ tokens expr ↔
  ∃ pre post,
    list_ascii_of_string expr = pre ++ list_ascii_of_string v ++ post ∧
    is_variable_token pre (list_ascii_of_string v) post.
Proof.
  split.
  - rewrite tokens_matches. intros (tok & -> & Hin)%list_elem_of_fmap.
    apply list_elem_of_omap in Hin as ([c|tok'] & Hin & [= ->]).
    apply list_elem_of_split in Hin as (ps1 & ps2 & Hps).
    exists (RegExp.text ps1), (RegExp.text ps2).
    rewrite list_ascii_of_string_of_list_ascii. split.
    + rewrite <- (RegExpFacts.text_exec None (list_ascii_of_string expr)) at 1.
      change (RegExp.exec_global None 0 (list_ascii_of_string expr))
        with (RegExp.pieces (list_ascii_of_string expr)).
      by rewrite Hps, RegExpFacts.text_app.
    + apply is_variable_token_match_at.
      by apply (RegExpFacts.exec_match_at None _ _ _ _ Hps).
  - intros (pre & post & Hs & Hm%is_variable_token_match_at).
    destruct (RegExpFacts.match_at_exec pre None _ post Hm) as (ps1 & ps2 & Hps & _).
    rewrite <- (string_of_list_ascii_of_string v). apply Match_in_pieces_tokens.
    rewrite Hs. unfold RegExp.pieces. rewrite Hps. apply elem_of_app. right. by left.
Qed.

(** [replace] at a variable token. *)
Lemma String_replace_at_token pre tok post replacer :
  is_variable_token pre tok post →
  String_replace (string_of_list_ascii (pre ++ tok ++ post)) RegExp.pieces replacer =
  String_replace (string_of_list_ascii pre) RegExp.pieces replacer
  +:+ default "undefined" (replacer (string_of_list_ascii tok))
  +:+ String_replace (string_of_list_ascii post) RegExp.pieces replacer.
Proof.
  intros Hm%is_variable_token_match_at. unfold String_replace.
  rewrite !list_ascii_of_string_of_list_ascii, (RegExpFacts.pieces_token _ _ _ Hm).
  unfold RegExp.substitute. rewrite flat_map_app. cbn [flat_map].
  by rewrite !string_of_list_ascii_app, string_of_list_ascii_of_string.
Qed.

Lemma no_token_token_free expr :
  (∀ pre tok post, list_ascii_of_string expr = pre ++ tok ++ post →
                   ¬ is_variable_token pre tok post) →
  token_free expr.
Proof.
  intros Hno. unfold token_free. destruct (tokens expr) as [|v l] eqn:Htok; [done|].
  exfalso. assert (v ∈ tokens expr) as Hv by (rewrite Htok; by left).
  apply tokens_rule in Hv as (pre & post & Hs & Hm). by apply (Hno _ _ _ Hs).
Qed.

(** ** The sorter and the resolver, further *)

Lemma universe_elem g x : x ∈ universe g ↔ x ∈ vertices g ∨ ∃ v, edge g v x.
Proof.
  split.
  - unfold universe. intros [Hx|Hx]%elem_of_union.
    + left. by apply elem_of_list_to_set in Hx.
    + right. apply elem_of_union_list in Hx as (X & HX & Hx).
      apply list_elem_of_fmap in HX as ([v l] & -> & Hvl).
      apply elem_of_map_to_list in Hvl. exists v.
      unfold edge, getAdjacencyList. rewrite Hvl. simpl.
      by apply elem_of_list_to_set in Hx.
  - intros [?|[v ?]]; [by apply universe_vertices|by eapply universe_edge].
Qed.

Lemma get_elem_of eqs n e : get eqs n = Some e → (n, e) ∈ eqs.
Proof.
  induction eqs as [|[k e'] eqs IH]; [done|]. simpl.
  destruct (decide (k = n)) as [->|]; [intros [= ->]; by left|].
  intros ?. right. by apply IH.
Qed.

Lemma get_is_Some eqs n : is_Some (get eqs n) ↔ n ∈ eqs.*1.
Proof.
  induction eqs as [|[k e'] eqs IH]; simpl.
  { rewrite elem_of_nil. split; [by intros [? ?]|done]. }
  rewrite elem_of_cons. destruct (decide (k = n)) as [->|]; [naive_solver|].
  rewrite IH. naive_solver.
Qed.

Lemma elem_of_get eqs n e : NoDup eqs.*1 → (n, e) ∈ eqs → get eqs n = Some e.
Proof.
  induction eqs as [|[k e'] eqs IH]; intros Hnd Hin; [by apply elem_of_nil in Hin|].
  simpl in *. apply NoDup_cons in Hnd as [Hk Hnd].
  apply elem_of_cons in Hin as [[= -> ->]|Hin]; [by rewrite decide_True|].
  rewrite decide_False; [by apply IH|]. intros ->. apply Hk.
  apply list_elem_of_fmap. by exists (n, e).
Qed.

Lemma buildGraph_vertices eqs v :
  v ∈ vertices (EquationResolver.buildGraph eqs) ↔
  v ∈ eqs.*1 ∨ ∃ n, depends eqs n v.
Proof.
  rewrite buildGraph_unfold. unfold depends.
  assert (∀ g, v ∈ vertices (foldl add_equation g eqs) ↔
               v ∈ vertices g ∨ v ∈ eqs.*1 ∨
               ∃ n expr, (n, expr) ∈ eqs ∧ v ∈ tokens expr) as H.
  { induction eqs as [|[n e] eqs IH]; intros g.
    - simpl. rewrite elem_of_nil. split; [by left|].
      intros [?|[[]|(? & ? & Hin & _)]]; [done|]. by apply elem_of_nil in Hin.
    - cbn [foldl]. rewrite IH. unfold add_equation at 1.
      destruct (add_dependencies_spec n (tokens e) (addVertex n g)) as [Hv _].
      simpl. rewrite Hv, vertices_addVertex, elem_of_cons. split.
      + intros [[[->|?]|?]|[?|(n' & e' & Hin & ?)]].
        * right. left. by left.
        * by left.
        * right. right. exists n, e. split; [by left|done].
        * right. left. by right.
        * right. right. exists n', e'. split; [by right|done].
      + intros [?|[[->|?]|(n' & e' & [[= -> ->]|Hin]%elem_of_cons & ?)]].
        * left. left. by right.
        * left. left. by left.
        * right. by left.
        * left. by right.
        * right. right. by exists n', e'. }
  rewrite H. simpl. rewrite elem_of_nil. naive_solver.
Qed.

Lemma sorter_ordering_vertices g t :
  closed g → new_TopologicalSorter g = Some t →
  ∀ x, x ∈ ordering t ↔ x ∈ vertices g.
Proof.
  intros Hcl Ht x. destruct (sorter_runs g) as (t' & Ht' & Hinv & Hall).
  assert (t' = t) as -> by congruence. split; [|apply Hall]. intros Hx.
  assert (x ∈ universe g) as [?|[v Hv]]%universe_elem; [|done|by destruct (Hcl v x Hv)].
  apply (inv_univ _ _ _ _ Hinv). rewrite (inv_marked _ _ _ _ Hinv). set_solver.
Qed.

Lemma sorter_ordering_NoDup g t : new_TopologicalSorter g = Some t → NoDup (ordering t).
Proof.
  intros Ht. destruct (sorter_runs g) as (t' & Ht' & Hinv & _).
  assert (t' = t) as -> by congruence. by destruct Hinv.
Qed.

(** The cycles of the built graph are the circular references. *)
Lemma cyclic_depends eqs :
  cyclic (EquationResolver.buildGraph eqs) ↔ ∃ v, tc (depends eqs) v v.
Proof.
  assert (∀ v w, tc (edge (EquationResolver.buildGraph eqs)) v w ↔ tc (depends eqs) v w)
    as H.
  { intros v w. split; induction 1 as [a b Hab|a b c Hab _ IH].
    - apply tc_once. by apply buildGraph_edge.
    - eapply tc_l; [|exact IH]. by apply buildGraph_edge.
    - apply tc_once. by apply buildGraph_edge.
    - eapply tc_l; [|exact IH]. by apply buildGraph_edge. }
  unfold cyclic. by setoid_rewrite H.
Qed.

Lemma before_cons_inv v n x l : before v n (x :: l) → v = x ∨ before v n l.
Proof.
  intros (i & j & Hij & Hi & Hj). destruct i as [|i]; [left; by injection Hi|].
  right. destruct j as [|j]; [lia|]. exists i, j. split_and!; [lia|done..].
Qed.

Lemma before_elem_of v n l : before v n l → v ∈ l.
Proof. intros (i & j & _ & Hi & _). by eapply list_elem_of_lookup_2. Qed.

(** The loop of [getExpandedEquations] throws where a name has no
    equation, and only there. *)
Lemma expand_loop_outcome eqs order : ∀ m0 w0,
  ((∀ n, n ∈ order → n ∈ eqs.*1) →
     ∃ m w, forEachThrowing order (EquationResolver.expand eqs) (m0, w0) = inr (m, w)) ∧
  (¬ (∀ n, n ∈ order → n ∈ eqs.*1) →
     forEachThrowing order (EquationResolver.expand eqs) (m0, w0) = inl TypeError).
Proof.
  induction order as [|n order IH]; intros m0 w0.
  { split; [by eexists _, _|]. intros H. exfalso. apply H.
    intros n Hn. by apply elem_of_nil in Hn. }
  simpl. destruct (get eqs n) as [e|] eqn:Hget.
  - assert (n ∈ eqs.*1) as Hn by (apply get_is_Some; by rewrite Hget).
    destruct (IH (<[n := String_replace e EquationResolver.exprVarTokenRe
                          (fun exprVar => m0 !! exprVar)]> m0)
                 (w0 ++ [Replace n])) as [IH1 IH2].
    split.
    + intros H. apply IH1. intros n' Hn'. apply H. by right.
    + intros H. apply IH2. intros H'. apply H.
      intros n' [->|Hn']%elem_of_cons; [done|by apply H'].
  - split; [|done]. intros H. exfalso.
    assert (is_Some (get eqs n)) as [? Hs]; [|congruence].
    apply get_is_Some, H. by left.
Qed.

(** What the loop of [getExpandedEquations] leaves when every name it meets
    comes after the names its equation refers to. *)
Lemma expand_loop_equations eqs : ∀ order m0 w0 m w,
  NoDup order → (∀ n, n ∈ order → n ∉ dom m0) →
  (∀ n e v, n ∈ order → (n, e) ∈ eqs → v ∈ tokens e →
            v ∈ dom m0 ∨ before v n order) →
  forEachThrowing order (EquationResolver.expand eqs) (m0, w0) = inr (m, w) →
  dom m = dom m0 ∪ list_to_set order ∧
  (∀ k, k ∈ dom m0 → m !! k = m0 !! k) ∧
  ∀ n, n ∈ order →
    ∃ e, get eqs n = Some e ∧ (∀ v, v ∈ tokens e → v ∈ dom m) ∧
         m !! n = Some (String_replace e EquationResolver.exprVarTokenRe
                          (fun v => m !! v)).
Proof.
  induction order as [|n order IH]; intros m0 w0 m w Hnd Hfresh Htok Hloop.
  { injection Hloop as <- <-. split_and!; [set_solver|done|].
    intros n Hn. by apply elem_of_nil in Hn. }
  simpl in Hloop. destruct (get eqs n) as [e|] eqn:Hget; [|done].
  apply NoDup_cons in Hnd as [Hn Hnd].
  assert (n ∉ dom m0) as Hn0 by (apply Hfresh; by left).
  apply IH in Hloop as (Hdom & Hkeep & Heqs); [|done| |].
  - assert (∀ v, v ∈ tokens e → v ∈ dom m0) as Hdeps.
    { intros v Hv.
      destruct (Htok n e v) as [?|Hb]; [by left|by apply get_elem_of|done|done|].
      exfalso. destruct Hb as (i & j & Hij & Hi & Hj).
      assert (j = 0); [|lia].
      eapply (NoDup_lookup (n :: order)); [by apply NoDup_cons|exact Hj|done]. }
    rewrite dom_insert_L in Hdom. split_and!.
    + rewrite Hdom. set_solver.
    + intros k Hk. rewrite Hkeep by (rewrite dom_insert_L; set_solver).
      apply lookup_insert_ne. intros ->. done.
    + intros n' [->|Hn']%elem_of_cons; [|by apply Heqs].
      exists e. split_and!; [done| |].
      * intros v Hv. rewrite Hdom. specialize (Hdeps v Hv). set_solver.
      * rewrite Hkeep by (rewrite dom_insert_L; set_solver).
        rewrite lookup_insert_eq. f_equal.
        apply String_replace_depends. intros v Hv. symmetry.
        rewrite Hkeep by (rewrite dom_insert_L; specialize (Hdeps v Hv); set_solver).
        apply lookup_insert_ne. intros ->. by apply Hn0, Hdeps.
  - intros n' Hn'. rewrite dom_insert_L. intros [->%elem_of_singleton|?]%elem_of_union;
      [done|]. by apply (Hfresh n'); [right|].
  - intros n' e' v Hn' Hin Hv. rewrite dom_insert_L.
    destruct (Htok n' e' v) as [?|Hb]; [by right|done..|left; set_solver|].
    apply before_cons_inv in Hb as [->|?]; [left; set_solver|by right].
Qed.

(** The equations that the expansion satisfies have one solution only. *)
Lemma expansion_unique eqs order (m m' : gmap string string) :
  NoDup order →
  (∀ n, n ∈ order → ∃ e, get eqs n = Some e ∧
                         ∀ v, v ∈ tokens e → before v n order) →
  dom m = list_to_set order → dom m' = list_to_set order →
  (∀ n e, n ∈ order → get eqs n = Some e →
          m !! n = Some (String_replace e EquationResolver.exprVarTokenRe
                           (fun v => m !! v))) →
  (∀ n e, n ∈ order → get eqs n = Some e →
          m' !! n = Some (String_replace e EquationResolver.exprVarTokenRe
                            (fun v => m' !! v))) →
  m = m'.
Proof.
  intros Hnd Htopo Hdom Hdom' Hm Hm'.
  assert (∀ i n, order !! i = Some n → m !! n = m' !! n) as Hsame.
  { induction i as [i IH] using lt_wf_ind. intros n Hi.
    assert (n ∈ order) as Hn by (by eapply list_elem_of_lookup_2).
    destruct (Htopo n Hn) as (e & Hget & Hbefore).
    rewrite (Hm n e Hn Hget), (Hm' n e Hn Hget). f_equal.
    apply String_replace_depends. intros v Hv.
    destruct (Hbefore v Hv) as (i' & j & Hij & Hi' & Hj).
    assert (j = i) as -> by (by eapply NoDup_lookup).
    by apply (IH i'). }
  apply map_eq. intros k. destruct (decide (k ∈ order)) as [Hk|Hk].
  - apply list_elem_of_lookup_1 in Hk as [i Hi]. by eapply Hsame.
  - assert (k ∉ dom m) by (rewrite Hdom; set_solver).
    assert (k ∉ dom m') by (rewrite Hdom'; set_solver).
    by rewrite (not_elem_of_dom_1 m), (not_elem_of_dom_1 m').
Qed.

Lemma all_defined_ordering eqs (ord : list string) :
  (∀ x, x ∈ ord ↔ x ∈ eqs.*1 ∨ ∃ n, depends eqs n x) →
  (all_defined eqs ↔ ∀ n, n ∈ ord → n ∈ eqs.*1).
Proof.
  intros Hord. split.
  - intros Hdef n [?|(n' & e & Hin & Hv)]%Hord; [done|]. by eapply Hdef.
  - intros H name expr v Hin Hv. apply H, Hord. right. exists name. by exists expr.
Qed.

(** The resolver of equations without a circular reference. *)
Lemma resolver_expansion eqs :
  NoDup eqs.*1 → ¬ cyclic (EquationResolver.buildGraph eqs) →
  ∃ r ord,
    EquationResolver.new eqs = Some r ∧
    EquationResolver.inputEquations r = eqs ∧
    EquationResolver.graphCycle r = None ∧
    EquationResolver.topologicalOrder r = Some ord ∧
    NoDup ord ∧
    (∀ x, x ∈ ord ↔ x ∈ eqs.*1 ∨ ∃ n, depends eqs n x) ∧
    (∀ v w, depends eqs v w → before w v ord) ∧
    (all_defined eqs →
       ∃ m, EquationResolver.getExpandedEquations r = inr m ∧
            dom m = list_to_set ord ∧
            ∀ n e, (n, e) ∈ eqs →
              (∀ v, v ∈ tokens e → v ∈ dom m) ∧
              m !! n = Some (String_replace e EquationResolver.exprVarTokenRe
                               (fun v => m !! v))) ∧
    (¬ all_defined eqs → EquationResolver.getExpandedEquations r = inl TypeError).
Proof.
  intros Hkeys Hacyc.
  destruct (EquationResolver_new_spec eqs) as (srt & r & Hsrt & _ & Hr & Hin & Hcyc & Hord).
  pose proof (sorter_cycle_iff _ _ (buildGraph_closed eqs) Hsrt) as Hiff.
  destruct (cycle srt) as [c|] eqn:Hc; [exfalso; apply Hacyc, Hiff; done|].
  destruct (sorter_topological _ _ (buildGraph_closed eqs) Hsrt Hc) as [Hnd Htopo].
  assert (∀ x, x ∈ ordering srt ↔ x ∈ eqs.*1 ∨ ∃ n, depends eqs n x) as Hmem.
  { intros x. rewrite (sorter_ordering_vertices _ _ (buildGraph_closed eqs) Hsrt).
    apply buildGraph_vertices. }
  assert (∀ v w, depends eqs v w → before w v (ordering srt)) as Hbefore.
  { intros v w Hvw. by apply Htopo, buildGraph_edge. }
  exists r, (ordering srt). split_and!; [done..| |].
  - intros Hdef. pose proof (proj1 (all_defined_ordering _ _ Hmem) Hdef) as Hdef'.
    unfold EquationResolver.getExpandedEquations,
      EquationResolver.getExpandedEquations_traced, EquationResolver.hasCycle.
    rewrite Hcyc, Hord, Hin. simpl.
    destruct (expand_loop_outcome eqs (ordering srt) ∅ []) as [[m [w Hloop]] _];
      [exact Hdef'|].
    rewrite Hloop. exists m. split; [done|].
    destruct (expand_loop_equations eqs _ _ _ _ _ Hnd
                ltac:(intros; rewrite dom_empty_L; set_solver)
                ltac:(intros n e v ? ? ?; right; apply Hbefore; by exists e) Hloop)
      as (Hdom & _ & Heqs).
    rewrite dom_empty_L, (left_id_L ∅ (∪)) in Hdom. split; [done|].
    intros n e Hne.
    destruct (Heqs n) as (e' & Hget & Htok & Hval).
    { apply Hmem. left. apply list_elem_of_fmap. by exists (n, e). }
    rewrite (elem_of_get _ _ _ Hkeys Hne) in Hget. injection Hget as <-. done.
  - intros Hdef. rewrite (all_defined_ordering _ _ Hmem) in Hdef.
    unfold EquationResolver.getExpandedEquations,
      EquationResolver.getExpandedEquations_traced, EquationResolver.hasCycle.
    rewrite Hcyc, Hord, Hin. simpl.
    destruct (expand_loop_outcome eqs (ordering srt) ∅ []) as [_ Hthrow].
    by rewrite Hthrow.
Qed.

Lemma resolver_refusal eqs r :
  EquationResolver.new eqs = Some r →
  cyclic (EquationResolver.buildGraph eqs) →
  EquationResolver.hasCycle r = true ∧
  EquationResolver.topologicalOrder r = None ∧
  (∃ c, EquationResolver.graphCycle r = Some c) ∧
  ∃ message, EquationResolver.getExpandedEquations r = inl (Error message).
Proof.
  intros Hr Hcyc.
  pose proof (proj2 (EquationResolver_hasCycle eqs r Hr) Hcyc) as Hhas.
  destruct (EquationResolver_new_spec eqs) as (srt & r' & _ & _ & Hr' & _ & Hc & Hord).
  assert (r' = r) as -> by congruence.
  unfold EquationResolver.hasCycle in Hhas.
  destruct (EquationResolver.graphCycle r) as [c|] eqn:Hg; [|done].
  rewrite <- Hc in Hord. split_and!; [by unfold EquationResolver.hasCycle; rewrite Hg|done|by eexists|].
  unfold EquationResolver.getExpandedEquations,
    EquationResolver.getExpandedEquations_traced, EquationResolver.hasCycle.
  rewrite Hg. by eexists.
Qed.

(** * Main results *)

(** C1. For every well-formed input whose dependency graph has no directed
    cycle, the sorter is built, [getOrdering] returns, and for every edge
    from [v] to [w] of the graph, [w] stands before [v] in the ordering
    returned, in which no name occurs twice. *)
Theorem ordering_respects_dependencies (inputEquations : EquationMap) :
  wf_equations inputEquations →
  ¬ cyclic (EquationResolver.buildGraph inputEquations) →
  ∃ sorter ord,
    new_TopologicalSorter (EquationResolver.buildGraph inputEquations) = Some sorter ∧
    Sorter.getOrdering sorter = inr ord ∧
    NoDup ord ∧
    ∀ v w, edge (EquationResolver.buildGraph inputEquations) v w → before w v ord.
Proof.
  intros _ Hacyc.
  destruct (sorter_runs (EquationResolver.buildGraph inputEquations))
    as (srt & Hsrt & _).
  pose proof (sorter_cycle_iff _ _ (buildGraph_closed inputEquations) Hsrt) as Hiff.
  destruct (cycle srt) as [c|] eqn:Hc; [exfalso; apply Hacyc, Hiff; done|].
  destruct (sorter_topological _ _ (buildGraph_closed inputEquations) Hsrt Hc)
    as [Hnd Htopo].
  exists srt, (ordering srt). split_and!; [done| |done..].
  unfold Sorter.getOrdering, Sorter.hasCycle. rewrite Hc.
  by rewrite bool_decide_eq_false_2 by (by intros []).
Qed.

Lemma canonical_wf : wf_equations canonical.
Proof. apply (bool_decide_unpack _). vm_compute. exact I. Defined.


Lemma canonical_acyclic : ¬ cyclic (EquationResolver.buildGraph canonical).
Proof.
  destruct (sorter_runs (EquationResolver.buildGraph canonical)) as (srt & Hsrt & _).
  intros Hcyc. apply (sorter_cycle_iff _ _ (buildGraph_closed canonical) Hsrt) in Hcyc.
  apply Hcyc. revert Hsrt. vm_compute. by intros [= <-].
Defined.

Lemma canonical_ordering_example :
  ∃ sorter ord,
    new_TopologicalSorter (EquationResolver.buildGraph canonical) = Some sorter ∧
    Sorter.getOrdering sorter = inr ord ∧
    NoDup ord ∧
    ∀ v w, edge (EquationResolver.buildGraph canonical) v w → before w v ord.
Proof.
  apply (ordering_respects_dependencies canonical).
  - exact canonical_wf.
  - exact canonical_acyclic.
Defined.

(** C2. For the input [{A:"B+2", B:"C+5", C:"1", D:"A+B"}], [hasCycle]
    returns [false] and [getExpandedEquations] returns exactly the map
    [{A:"1+5+2", B:"1+5", C:"1", D:"1+5+2+1+5"}]. *)
Theorem canonical_expansion :
  ∃ resolver,
    EquationResolver.new canonical = Some resolver ∧
    EquationResolver.hasCycle resolver = false ∧
    EquationResolver.getExpandedEquations resolver =
      inr {[ "A" := "1+5+2"; "B" := "1+5"; "C" := "1"; "D" := "1+5+2+1+5" ]}.
Proof. eexists. split_and!; [vm_compute; reflexivity|..]; vm_compute; reflexivity. Qed.

(** C3. The sorter and the resolver are built for every well-formed input.
    If the dependency graph has a directed cycle, [getOrdering] throws; it
    returns an ordering exactly when there is no cycle; [hasCycle] of the
    resolver tells whether there is one, and [getExpandedEquations] throws
    whenever it is true. *)
Theorem cycle_refused (inputEquations : EquationMap) :
  wf_equations inputEquations →
  ∃ sorter resolver,
    new_TopologicalSorter (EquationResolver.buildGraph inputEquations) = Some sorter ∧
    EquationResolver.new inputEquations = Some resolver ∧
    (cyclic (EquationResolver.buildGraph inputEquations) →
       ∃ message, Sorter.getOrdering sorter = inl (Error message)) ∧
    ((∃ ord, Sorter.getOrdering sorter = inr ord) ↔
       ¬ cyclic (EquationResolver.buildGraph inputEquations)) ∧
    (EquationResolver.hasCycle resolver = true ↔
       cyclic (EquationResolver.buildGraph inputEquations)) ∧
    (EquationResolver.hasCycle resolver = true →
       ∃ message, EquationResolver.getExpandedEquations resolver = inl (Error message)).
Proof.
  intros _.
  destruct (EquationResolver_new_spec inputEquations)
    as (srt & r & Hsrt & _ & Hr & _ & Hcyc & _).
  pose proof (sorter_cycle_iff _ _ (buildGraph_closed inputEquations) Hsrt) as Hiff.
  exists srt, r. split_and!; [done..| | | |].
  - intros Hc%Hiff. unfold Sorter.getOrdering, Sorter.hasCycle.
    rewrite bool_decide_eq_true_2 by done. by eexists.
  - unfold Sorter.getOrdering, Sorter.hasCycle. rewrite <- Hiff.
    destruct (cycle srt) as [c|].
    + rewrite bool_decide_eq_true_2 by done. split; [by intros [? ?]|].
      intros H. by destruct H.
    + rewrite bool_decide_eq_false_2 by (by intros []). split; [by intros _ []|].
      intros _. by eexists.
  - by apply EquationResolver_hasCycle.
  - intros Hc. unfold EquationResolver.getExpandedEquations,
      EquationResolver.getExpandedEquations_traced. rewrite Hc. by eexists.
Qed.

Lemma mutual_dependency_example :
  ∃ sorter resolver,
    new_TopologicalSorter (EquationResolver.buildGraph two_cycle) = Some sorter ∧
    EquationResolver.new two_cycle = Some resolver ∧
    (cyclic (EquationResolver.buildGraph two_cycle) →
       ∃ message, Sorter.getOrdering sorter = inl (Error message)) ∧
    ((∃ ord, Sorter.getOrdering sorter = inr ord) ↔
       ¬ cyclic (EquationResolver.buildGraph two_cycle)) ∧
    (EquationResolver.hasCycle resolver = true ↔
       cyclic (EquationResolver.buildGraph two_cycle)) ∧
    (EquationResolver.hasCycle resolver = true →
       ∃ message, EquationResolver.getExpandedEquations resolver = inl (Error message)).
Proof.
  apply (cycle_refused two_cycle).
  apply (bool_decide_unpack _). vm_compute. exact I.
Defined.

(** C4, at its input [{A:"X+1"}]: the graph has no cycle, the ordering is
    [X, A], and [getExpandedEquations] throws the [TypeError] of calling
    [replace] on the missing equation of [X]. *)
Theorem undefined_variable_throws :
  ∃ resolver,
    EquationResolver.new [("A", "X+1")] = Some resolver ∧
    EquationResolver.hasCycle resolver = false ∧
    EquationResolver.topologicalOrder resolver = Some ["X"; "A"] ∧
    EquationResolver.getExpandedEquations resolver = inl TypeError.
Proof. eexists. split_and!; [vm_compute; reflexivity|..]; vm_compute; reflexivity. Qed.

(** C5. A text standing between [pre] and [post] is a variable token in the
    words of the specification exactly when the global pattern reports it
    as a match at that place.  Both uses go by this rule.  The names
    extracted from an expression are the texts that stand in it as
    variable tokens, and the edges of the built graph lead from the name of
    an equation to these names.  [replace] writes, in the place of a
    variable token, what the replacement function returns for it, between
    what it makes of the text before and of the text after; it leaves a
    text without a variable token as it is; so the function is consulted on
    the tokens only, and all other text is kept.  For ["FOO(A,B)+C"] the
    dependencies are [A], [B] and [C], without [FOO]. *)
Theorem token_rule :
  (∀ pre tok post,
     is_variable_token pre tok post ↔
     ∃ before_it after_it,
       RegExp.pieces (pre ++ tok ++ post) = before_it ++ RegExp.Match tok :: after_it ∧
       RegExp.text before_it = pre ∧ RegExp.text after_it = post) ∧
  (∀ expr v,
     v ∈ tokens expr ↔
     ∃ pre post,
       list_ascii_of_string expr = pre ++ list_ascii_of_string v ++ post ∧
       is_variable_token pre (list_ascii_of_string v) post) ∧
  (∀ inputEquations v w,
     wf_equations inputEquations →
     (edge (EquationResolver.buildGraph inputEquations) v w ↔
      ∃ expr, (v, expr) ∈ inputEquations ∧ w ∈ tokens expr)) ∧
  (∀ pre tok post replacer,
     is_variable_token pre tok post →
     String_replace (string_of_list_ascii (pre ++ tok ++ post))
       EquationResolver.exprVarTokenRe replacer =
     String_replace (string_of_list_ascii pre) EquationResolver.exprVarTokenRe replacer
     +:+ default "undefined" (replacer (string_of_list_ascii tok))
     +:+ String_replace (string_of_list_ascii post) EquationResolver.exprVarTokenRe
           replacer) ∧
  (∀ expr replacer,
     (∀ pre tok post, list_ascii_of_string expr = pre ++ tok ++ post →
                      ¬ is_variable_token pre tok post) →
     String_replace expr EquationResolver.exprVarTokenRe replacer = expr) ∧
  (∀ expr replacer replacer',
     (∀ v, v ∈ tokens expr → replacer v = replacer' v) →
     String_replace expr EquationResolver.exprVarTokenRe replacer
     = String_replace expr EquationResolver.exprVarTokenRe replacer') ∧
  (∀ expr, String_replace expr EquationResolver.exprVarTokenRe Some = expr) ∧
  String_match "FOO(A,B)+C" EquationResolver.exprVarTokenRe = Some ["A"; "B"; "C"] ∧
  getAdjacencyList (EquationResolver.buildGraph [("N", "FOO(A,B)+C")]) "N"
    = ["A"; "B"; "C"].
Proof.
  split_and!.
  - intros pre tok post. rewrite is_variable_token_match_at. split.
    + apply RegExpFacts.match_at_exec.
    + intros (ps1 & ps2 & Hps & <- & <-).
      by apply RegExpFacts.exec_match_at in Hps.
  - apply tokens_rule.
  - intros inputEquations v w _. apply buildGraph_edge.
  - apply String_replace_at_token.
  - intros expr replacer Hno.
    by apply String_replace_unchanged, no_token_token_free.
  - intros expr f f'. apply String_replace_depends.
  - apply String_replace_Some.
  - vm_compute. reflexivity.
  - vm_compute. reflexivity.
Qed.

Lemma token_replaced_example :
  (edge (EquationResolver.buildGraph canonical) "D" "A" ↔
   ∃ expr, ("D", expr) ∈ canonical ∧ "A" ∈ tokens expr) ∧
  String_replace "FOO(A,B)+C" EquationResolver.exprVarTokenRe
    (fun v => if decide (v = "A") then Some "1" else None)
  = String_replace "FOO(" EquationResolver.exprVarTokenRe
      (fun v => if decide (v = "A") then Some "1" else None)
    +:+ "1"
    +:+ String_replace ",B)+C" EquationResolver.exprVarTokenRe
          (fun v => if decide (v = "A") then Some "1" else None) ∧
  String_replace "A+B" EquationResolver.exprVarTokenRe
    (fun v => if decide (v = "A") then Some "1" else None)
  = String_replace "A+B" EquationResolver.exprVarTokenRe
      (fun v => if decide (v = "A") then Some "1"
                else if decide (v = "B") then None else Some "2").
Proof.
  destruct token_rule as (_ & _ & Hedge & Hat & _ & Hsame & _).
  split_and!.
  - apply Hedge. exact canonical_wf.
  - apply (Hat (list_ascii_of_string "FOO(") (list_ascii_of_string "A")
               (list_ascii_of_string ",B)+C")).
    unfold is_variable_token. split_and!.
    + done.
    + by repeat constructor.
    + intros c [H|H]; vm_compute in H; injection H as <-; reflexivity.
    + intros c [H|H]; vm_compute in H; injection H as <-; reflexivity.
    + vm_compute. discriminate.
  - apply Hsame. intros v Hv. vm_compute in Hv.
    repeat destruct (decide _); try done; subst.
    apply elem_of_cons in Hv as [?|Hv]; [done|].
    apply elem_of_cons in Hv as [?|Hv]; [done|]. by apply elem_of_nil in Hv.
Defined.

(** C6. For the input [{A:"A+1"}], [hasCycle] returns [true] and [getCycle]
    returns [["A"; "A"]]; and whatever the well-formed input, a cycle that
    [getCycle] returns starts and ends with the same name, and is a closed
    walk along the edges of the dependency graph. *)
Theorem self_cycle :
  (∃ resolver,
     EquationResolver.new [("A", "A+1")] = Some resolver ∧
     EquationResolver.hasCycle resolver = true ∧
     EquationResolver.getCycle resolver = Some ["A"; "A"]) ∧
  (∀ inputEquations resolver c,
     wf_equations inputEquations →
     EquationResolver.new inputEquations = Some resolver →
     EquationResolver.getCycle resolver = Some c →
     (∃ name middle, c = name :: middle ++ [name]) ∧
     walk (EquationResolver.buildGraph inputEquations) c).
Proof.
  split.
  - eexists. split_and!; [vm_compute; reflexivity|..]; vm_compute; reflexivity.
  - intros eqs r c _ Hr Hc.
    destruct (EquationResolver_new_spec eqs) as (srt & r' & Hsrt & _ & Hr' & _ & Hcyc & _).
    assert (r' = r) as -> by congruence.
    unfold EquationResolver.getCycle in Hc. rewrite Hcyc in Hc.
    destruct (sorter_sound _ _ _ Hsrt Hc) as (w & l & -> & Hl & Hw).
    split; [|done]. apply last_Some in Hl as [mid ->]. by exists w, mid.
Qed.

Lemma closed_walk_example :
  (∃ name middle, ["A"; "B"; "A"] = name :: middle ++ [name]) ∧
  walk (EquationResolver.buildGraph two_cycle) ["A"; "B"; "A"].
Proof.
  destruct self_cycle as [_ Hgen].
  destruct (EquationResolver_new_spec two_cycle) as (srt & r & _ & _ & Hr & _).
  apply (Hgen two_cycle r).
  - apply (bool_decide_unpack _). vm_compute. exact I.
  - exact Hr.
  - revert Hr. vm_compute. by intros [= <-].
Defined.




(** C8. For every well-formed input, when [getExpandedEquations] returns a
    mapping, no equation name is among the variable tokens of its own
    expanded text (the expanded texts have no variable token at all); and
    when there is a cycle the expansion is refused with an error. *)
Theorem no_name_in_own_expansion (inputEquations : EquationMap) :
  wf_equations inputEquations →
  ∃ resolver,
    EquationResolver.new inputEquations = Some resolver ∧
    (∀ expandedEquations name expanded,
       EquationResolver.getExpandedEquations resolver = inr expandedEquations →
       expandedEquations !! name = Some expanded →
       token_free expanded ∧ name ∉ tokens expanded) ∧
    (cyclic (EquationResolver.buildGraph inputEquations) →
       ∃ message, EquationResolver.getExpandedEquations resolver = inl (Error message)).
Proof.
  intros _.
  destruct (EquationResolver_new_spec inputEquations)
    as (srt & r & Hsrt & _ & Hr & _ & _ & _).
  exists r. split_and!; [done| |].
  - intros m name expanded Hm Hname.
    assert (token_free expanded) as Hfree.
    { unfold EquationResolver.getExpandedEquations,
        EquationResolver.getExpandedEquations_traced in Hm.
      destruct (EquationResolver.hasCycle r); [done|].
      destruct (forEachThrowing _ _ _) as [e|[m' w]] eqn:Hloop; [done|].
      injection Hm as ->.
      apply (expand_loop_token_free _ _ _ _ _ _ (map_Forall_empty _) Hloop name).
      done. }
    split; [done|]. unfold token_free in Hfree. rewrite Hfree.
    apply not_elem_of_nil.
  - intros Hc%(EquationResolver_hasCycle _ _ Hr).
    unfold EquationResolver.getExpandedEquations,
      EquationResolver.getExpandedEquations_traced. rewrite Hc. by eexists.
Qed.

Lemma canonical_token_free_example :
  ∃ resolver,
    EquationResolver.new canonical = Some resolver ∧
    (∀ expandedEquations name expanded,
       EquationResolver.getExpandedEquations resolver = inr expandedEquations →
       expandedEquations !! name = Some expanded →
       token_free expanded ∧ name ∉ tokens expanded) ∧
    (cyclic (EquationResolver.buildGraph canonical) →
       ∃ message, EquationResolver.getExpandedEquations resolver = inl (Error message)).
Proof. apply (no_name_in_own_expansion canonical). exact canonical_wf. Defined.

(** C9. Whatever the operations applied to a new graph, on valid names, no
    vertex is listed twice and no adjacency list holds a name twice; adding
    a vertex that is there, or an edge that is there, changes nothing; and
    the graph built from the equation [N = "A+A+B"] has exactly the edges
    from [N] to [A] and from [N] to [B], once each. *)
Theorem graph_set_semantics :
  (∀ ops, Forall valid_op ops →
     NoDup (getVertices (foldl apply_op new_Graph ops)) ∧
     ∀ v, NoDup (getAdjacencyList (foldl apply_op new_Graph ops) v)) ∧
  (∀ g v, valid_name v → v ∈ getVertices g → addVertex v g = g) ∧
  (∀ g v w, valid_name v → valid_name w →
     w ∈ getAdjacencyList g v → addEdge v w g = g) ∧
  getAdjacencyList (EquationResolver.buildGraph [("N", "A+A+B")]) "N" = ["A"; "B"].
Proof.
  split_and!.
  - intros ops _.
    assert (∀ g, (NoDup (getVertices g) ∧ ∀ v, NoDup (getAdjacencyList g v)) →
                 NoDup (getVertices (foldl apply_op g ops)) ∧
                 ∀ v, NoDup (getAdjacencyList (foldl apply_op g ops) v)) as H.
    { induction ops as [|op ops IH]; intros g Hg; [done|].
      simpl. apply IH. destruct Hg as [Hv Ha]. destruct op as [x|a b]; simpl.
      - split; [|done]. unfold getVertices, addVertex. simpl.
        destruct (decide (x ∈ vertices g)); [done|].
        apply NoDup_app. split_and!; [done| |apply NoDup_singleton].
        by intros y Hy ->%list_elem_of_singleton.
      - split; [done|]. intros v. rewrite getAdjacencyList_addEdge.
        destruct (decide (v = a)) as [->|]; [|done].
        destruct (decide (b ∈ getAdjacencyList g a)); [done|].
        apply NoDup_app. split_and!; [done| |apply NoDup_singleton].
        by intros y Hy ->%list_elem_of_singleton. }
    apply H. split; [apply NoDup_nil_2|]. intros v. apply NoDup_nil_2.
  - intros [vs a] v _ Hv. unfold addVertex, getVertices in *. simpl in *.
    by rewrite decide_True.
  - intros [vs a] v w _ _ Hw. unfold addEdge, getAdjacencyList in *. simpl in *.
    destruct (a !! v) as [l|] eqn:Hl; simpl in *; [|by apply elem_of_nil in Hw].
    rewrite Hl. simpl. by rewrite decide_True.
  - vm_compute. reflexivity.
Qed.

Lemma repeated_operations_example :
  NoDup (getVertices (foldl apply_op new_Graph
           [AddVertex "A"; AddVertex "B"; AddVertex "A"; AddEdge "A" "B"; AddEdge "A" "B"])) ∧
  ∀ v, NoDup (getAdjacencyList (foldl apply_op new_Graph
           [AddVertex "A"; AddVertex "B"; AddVertex "A"; AddEdge "A" "B"; AddEdge "A" "B"]) v).
Proof.
  destruct graph_set_semantics as [Hops _]. apply Hops.
  repeat constructor; by vm_compute.
Defined.

(** C10. For every well-formed input both resolvers are built, and they
    agree on [hasCycle], on [getCycle] and on how the expansion ends: with
    the same mapping, or with an error of the same kind. *)
Theorem resolvers_agree (input : EquationMap) :
  wf_equations input →
  ∃ equationResolver expressionResolver,
    EquationResolver.new input = Some equationResolver ∧
    ExpressionResolver.new input = Some expressionResolver ∧
    EquationResolver.hasCycle equationResolver
      = ExpressionResolver.hasCycle expressionResolver ∧
    EquationResolver.getCycle equationResolver
      = ExpressionResolver.getCycle expressionResolver ∧
    same_outcome (EquationResolver.getExpandedEquations equationResolver)
                 (ExpressionResolver.getExpandedExpressions expressionResolver).
Proof.
  intros _.
  destruct (EquationResolver_new_spec input)
    as (srt & r1 & Hsrt & _ & Hr1 & Hin1 & Hcyc1 & Hord1).
  destruct (ExpressionResolver_new_spec input)
    as (srt' & r2 & Hsrt' & Hr2 & Hin2 & Hflag2 & Hcyc2 & Hord2).
  assert (srt' = srt) as -> by congruence.
  exists r1, r2.
  assert (EquationResolver.hasCycle r1 = ExpressionResolver.hasCycle r2) as Hhas.
  { unfold EquationResolver.hasCycle, ExpressionResolver.hasCycle.
    rewrite Hcyc1, Hflag2. destruct (cycle srt); [done|].
    by rewrite bool_decide_eq_false_2 by (by intros []). }
  split_and!; [done..| |].
  - unfold EquationResolver.getCycle, ExpressionResolver.getCycle. congruence.
  - unfold EquationResolver.getExpandedEquations,
      EquationResolver.getExpandedEquations_traced,
      ExpressionResolver.getExpandedExpressions.
    rewrite <- Hhas. destruct (EquationResolver.hasCycle r1); [done|].
    rewrite Hin1, Hin2, Hord1, Hord2.
    pose proof (expand_loops_agree input
                  (default [] match cycle srt with
                              | Some _ => None
                              | None => Some (ordering srt)
                              end) ∅ []) as Hloops.
    destruct (forEachThrowing _ (EquationResolver.expand input) _) as [e|[m w]].
    + rewrite Hloops. by destruct e.
    + by rewrite Hloops.
Qed.

Lemma canonical_agreement_example :
  ∃ equationResolver expressionResolver,
    EquationResolver.new canonical = Some equationResolver ∧
    ExpressionResolver.new canonical = Some expressionResolver ∧
    EquationResolver.hasCycle equationResolver
      = ExpressionResolver.hasCycle expressionResolver ∧
    EquationResolver.getCycle equationResolver
      = ExpressionResolver.getCycle expressionResolver ∧
    same_outcome (EquationResolver.getExpandedEquations equationResolver)
                 (ExpressionResolver.getExpandedExpressions expressionResolver).
Proof. apply (resolvers_agree canonical). exact canonical_wf. Defined.

(** * Further results *)

(** ** The graph *)

Lemma run_ops_spec ops : ∀ g,
  (∀ v, v ∈ vertices (foldl apply_op g ops) ↔ v ∈ vertices g ∨ AddVertex v ∈ ops) ∧
  (∀ v w, edge (foldl apply_op g ops) v w ↔ edge g v w ∨ AddEdge v w ∈ ops).
Proof.
  induction ops as [|op ops IH]; intros g.
  { split; intros; rewrite elem_of_nil; naive_solver. }
  destruct (IH (apply_op g op)) as [IHv IHe]. split.
  - intros v. cbn [foldl]. rewrite IHv, elem_of_cons.
    destruct op as [x|a b]; cbn [apply_op].
    + rewrite vertices_addVertex. naive_solver.
    + change (vertices (addEdge a b g)) with (vertices g). naive_solver.
  - intros v w. cbn [foldl]. rewrite IHe, elem_of_cons.
    destruct op as [x|a b]; cbn [apply_op].
    + rewrite edge_addVertex. naive_solver.
    + rewrite edge_addEdge. naive_solver.
Qed.

(** X1. What [getVertices] and [getAdjacencyList] give back is what
    [addVertex] and [addEdge] were called with, and nothing else: a name is
    listed as a vertex exactly when it was added as one (adding an edge adds
    no vertex), and [w] is in the adjacency list of [v] exactly when the
    edge from [v] to [w] was added. *)
Theorem graph_round_trip (ops : list graph_op) :
  Forall valid_op ops →
  (∀ v, v ∈ getVertices (foldl apply_op new_Graph ops) ↔ AddVertex v ∈ ops) ∧
  (∀ v w, w ∈ getAdjacencyList (foldl apply_op new_Graph ops) v ↔ AddEdge v w ∈ ops).
Proof.
  intros _. destruct (run_ops_spec ops new_Graph) as [Hv He]. split.
  - intros v. unfold getVertices. rewrite Hv. simpl. rewrite elem_of_nil. naive_solver.
  - intros v w. change (w ∈ getAdjacencyList (foldl apply_op new_Graph ops) v)
      with (edge (foldl apply_op new_Graph ops) v w).
    rewrite He. unfold edge, getAdjacencyList. simpl. rewrite lookup_empty. simpl.
    rewrite elem_of_nil. naive_solver.
Qed.

Lemma edge_without_vertex_example :
  (∀ v, v ∈ getVertices (foldl apply_op new_Graph [AddVertex "A"; AddEdge "A" "B"])
        ↔ AddVertex v ∈ [AddVertex "A"; AddEdge "A" "B"]) ∧
  (∀ v w, w ∈ getAdjacencyList (foldl apply_op new_Graph [AddVertex "A"; AddEdge "A" "B"]) v
          ↔ AddEdge v w ∈ [AddVertex "A"; AddEdge "A" "B"]).
Proof.
  apply (graph_round_trip [AddVertex "A"; AddEdge "A" "B"]).
  repeat constructor; by vm_compute.
Defined.

(** ** The pattern, again *)

(** X2. Every name the pattern extracts from an expression is a non-empty
    run of upper-case letters. *)
Theorem tokens_valid (expr v : string) : v ∈ tokens expr → valid_name v.
Proof.
  rewrite tokens_matches. intros (tok & -> & Hin)%list_elem_of_fmap.
  apply list_elem_of_omap in Hin as ([c|tok'] & Hin & [= ->]).
  apply list_elem_of_split in Hin as (ps1 & ps2 & Hps).
  apply RegExpFacts.exec_match_at in Hps.
  destruct (RegExpFacts.match_at_Some _ _ _ _ Hps) as (_ & Hne & Hu & _).
  split; [|by rewrite all_upper_of_list].
  intros Heq. apply (f_equal list_ascii_of_string) in Heq.
  by rewrite list_ascii_of_string_of_list_ascii in Heq.
Qed.

Lemma upper_case_token_example : valid_name "AB".
Proof. apply (tokens_valid "AB+1" "AB"). by vm_compute; left. Defined.

(** X3. Where the pattern finds no token, [replace] gives the text back
    unchanged, whatever the replacement function. *)
Theorem String_replace_token_free_id (expr : string) (replacer : string → option string) :
  token_free expr →
  String_replace expr EquationResolver.exprVarTokenRe replacer = expr.
Proof. apply String_replace_unchanged. Qed.

Lemma call_left_alone_example :
  String_replace "SUM(1,2)+x1" EquationResolver.exprVarTokenRe (fun _ => Some "?")
  = "SUM(1,2)+x1".
Proof. apply String_replace_token_free_id. by vm_compute. Defined.

(** ** The sorter, again *)

(** X4. On every graph, with or without a cycle, the constructor of the
    sorter returns; the traversal puts every vertex in [ordering], no name
    twice, and nothing but vertices and targets of edges. *)
Theorem sorter_visits_once (ops : list graph_op) :
  Forall valid_op ops →
  ∃ sorter,
    new_TopologicalSorter (foldl apply_op new_Graph ops) = Some sorter ∧
    NoDup (ordering sorter) ∧
    (∀ v, v ∈ getVertices (foldl apply_op new_Graph ops) → v ∈ ordering sorter) ∧
    (∀ x, x ∈ ordering sorter →
          x ∈ getVertices (foldl apply_op new_Graph ops) ∨
          ∃ v, edge (foldl apply_op new_Graph ops) v x).
Proof.
  intros _. destruct (sorter_runs (foldl apply_op new_Graph ops)) as (t & Ht & Hinv & Hall).
  exists t. split_and!; [done|by destruct Hinv|done|].
  intros x Hx. apply universe_elem. apply (inv_univ _ _ _ _ Hinv).
  rewrite (inv_marked _ _ _ _ Hinv). set_solver.
Qed.

Lemma dangling_target_example :
  ∃ sorter,
    new_TopologicalSorter (foldl apply_op new_Graph dangling_ops) = Some sorter ∧
    NoDup (ordering sorter) ∧
    (∀ v, v ∈ getVertices (foldl apply_op new_Graph dangling_ops) → v ∈ ordering sorter) ∧
    (∀ x, x ∈ ordering sorter →
          x ∈ getVertices (foldl apply_op new_Graph dangling_ops) ∨
          ∃ v, edge (foldl apply_op new_Graph dangling_ops) v x).
Proof.
  apply (sorter_visits_once dangling_ops). repeat constructor; by vm_compute.
Defined.

(** X5. On every graph whose edges join listed vertices, [hasCycle] is true
    exactly when the graph has a directed cycle; when it is false,
    [getOrdering] returns an ordering that lists the vertices, each once,
    the target of every edge before its source. *)
Theorem sorter_contract (ops : list graph_op) :
  Forall valid_op ops →
  closed (foldl apply_op new_Graph ops) →
  ∃ sorter,
    new_TopologicalSorter (foldl apply_op new_Graph ops) = Some sorter ∧
    (Sorter.hasCycle sorter = true ↔ cyclic (foldl apply_op new_Graph ops)) ∧
    (Sorter.hasCycle sorter = false →
     ∃ ord, Sorter.getOrdering sorter = inr ord ∧
            ord ≡ₚ getVertices (foldl apply_op new_Graph ops) ∧
            ∀ v w, edge (foldl apply_op new_Graph ops) v w → before w v ord).
Proof.
  intros _ Hcl. set (g := foldl apply_op new_Graph ops) in *.
  destruct (sorter_runs g) as (t & Ht & Hinv & Hall).
  pose proof (sorter_cycle_iff g t Hcl Ht) as Hiff.
  exists t. split_and!; [done| |].
  - rewrite <- Hiff. unfold Sorter.hasCycle. by rewrite bool_decide_eq_true.
  - intros Hno. unfold Sorter.getOrdering. rewrite Hno.
    apply bool_decide_eq_false in Hno. apply dec_stable in Hno.
    destruct (sorter_topological g t Hcl Ht Hno) as [Hnd Htopo].
    exists (ordering t). split_and!; [done| |done].
    apply NoDup_Permutation; [done| |].
    + assert (∀ ops g0, NoDup (vertices g0) → NoDup (vertices (foldl apply_op g0 ops)))
        as Hvnd.
      { clear. induction ops as [|op ops IH]; intros g0 Hg0; [done|].
        simpl. apply IH. destruct op as [x|a b]; simpl; [|done].
        destruct (decide (x ∈ vertices g0)); [done|].
        apply NoDup_app. split_and!; [done| |apply NoDup_singleton].
        by intros y Hy ->%list_elem_of_singleton. }
      apply Hvnd. apply NoDup_nil_2.
    + intros x. split; [|apply Hall]. intros Hx.
      assert (x ∈ universe g) as [?|[v Hv]]%universe_elem; [|done|by destruct (Hcl v x Hv)].
      apply (inv_univ _ _ _ _ Hinv). rewrite (inv_marked _ _ _ _ Hinv). set_solver.
Qed.

Lemma diamond_example :
  ∃ sorter,
    new_TopologicalSorter (foldl apply_op new_Graph diamond_ops) = Some sorter ∧
    (Sorter.hasCycle sorter = true ↔ cyclic (foldl apply_op new_Graph diamond_ops)) ∧
    (Sorter.hasCycle sorter = false →
     ∃ ord, Sorter.getOrdering sorter = inr ord ∧
            ord ≡ₚ getVertices (foldl apply_op new_Graph diamond_ops) ∧
            ∀ v w, edge (foldl apply_op new_Graph diamond_ops) v w → before w v ord).
Proof.
  apply (sorter_contract diamond_ops).
  - repeat constructor; by vm_compute.
  - intros v w Hvw.
    destruct (run_ops_spec diamond_ops new_Graph) as [Hv He].
    apply He in Hvw as [Hvw|Hvw]; [by apply elem_of_nil in Hvw|].
    rewrite !Hv. unfold diamond_ops in *.
    repeat (apply elem_of_cons in Hvw as [Hvw|Hvw];
            [first [discriminate Hvw
                   |injection Hvw as -> ->; split; right; repeat constructor]|]).
    by apply elem_of_nil in Hvw.
Defined.

(** *** The cycle recorded is simple *)

Lemma unwind_reverse g eT w : ∀ pre post acc fuel c,
  chain g eT (pre ++ w :: post) → w ∉ pre →
  unwind fuel eT w (default w (head pre)) acc = Some c →
  c = reverse pre ++ acc.
Proof.
  induction pre as [|x pre IH]; intros post acc fuel c Hch Hw Hc.
  { simpl in Hc. destruct fuel; simpl in Hc; rewrite decide_True in Hc by done;
      by injection Hc as <-. }
  apply not_elem_of_cons in Hw as [Hwx Hw]. simpl in Hc.
  destruct fuel as [|fuel]; simpl in Hc; rewrite decide_False in Hc by done; [done|].
  assert (eT !! x = Some (default w (head pre)) ∧ chain g eT (pre ++ w :: post))
    as [Hx Hch'].
  { destruct pre as [|y pre]; simpl in *; by destruct Hch as (? & _ & ?). }
  rewrite Hx in Hc. apply (IH post) in Hc; [|done..].
  by rewrite reverse_cons, <- app_assoc.
Qed.

Lemma cycle_kept_or_simple_refl t : cycle_kept_or_simple t t.
Proof. intros c ?. by left. Qed.

Lemma cycle_kept_or_simple_trans t1 t2 t3 :
  cycle_kept_or_simple t1 t2 → cycle_kept_or_simple t2 t3 → cycle_kept_or_simple t1 t3.
Proof. intros H12 H23 c [?|?]%H23; [by apply H12|by right]. Qed.

Section dfs_simple.
Variable g : Graph.
Variable U : gset string.
Hypothesis U_edge : ∀ v w, edge g v w → w ∈ U.

Lemma visit_simple f recur v stk w t t' :
  recur_simple g U f recur → inv g U (v :: stk) t → edge g v w →
  size (U ∖ marked t) ≤ f → visit recur v w t = Some t' →
  cycle_kept_or_simple t t'.
Proof.
  intros Hrec Hinv Hvw Hf. unfold visit.
  destruct (cycle t) as [c|] eqn:Hcyc.
  { intros [= <-]. apply cycle_kept_or_simple_refl. }
  assert (Hstk : ∀ x, x ∈ v :: stk → x ∈ marked t).
  { intros x Hx. rewrite (inv_marked _ _ _ _ Hinv), (inv_stack _ _ _ _ Hinv).
    set_solver. }
  destruct (decide (w ∉ marked t)) as [Hw|Hw].
  - intros Ht'. assert (Hwstk : w ∉ v :: stk) by (intros ?; apply Hw; auto).
    apply (Hrec w (set_edgeTo w v t) (v :: stk)) in Ht'; [| |done| | |done].
    + intros c Hc. destruct (Ht' c Hc) as [Hc'|?]; [|by right].
      fields. congruence.
    + destruct Hinv. constructor; fields; try done. by apply chain_insert.
    + by eapply U_edge.
    + fields. split_and!; [by rewrite lookup_insert_eq|done|].
      apply chain_insert; [done|]. by destruct Hinv.
  - destruct (decide (w ∈ onStack t)) as [Hon|Hon];
      [|intros [= <-]; apply cycle_kept_or_simple_refl].
    destruct (unwind _ _ _ _ _) as [cyc|] eqn:Hun; [|done]. intros [= <-].
    intros c [= <-]. right.
    rewrite (inv_stack _ _ _ _ Hinv) in Hon. apply elem_of_list_to_set in Hon.
    apply list_elem_of_split_l in Hon as (pre & post & Hsplit & Hpre).
    assert (v = default w (head pre)) as Hv.
    { destruct pre; by injection Hsplit. }
    rewrite Hv in Hun. apply (unwind_reverse g _ _ pre post) in Hun; [| |done].
    + subst cyc. exists w, (reverse pre). split; [done|].
      pose proof (inv_stack_nodup _ _ _ _ Hinv) as Hnd. rewrite Hsplit in Hnd.
      apply NoDup_app in Hnd as (Hnd & _ & _).
      apply NoDup_cons. split; [by rewrite elem_of_reverse|by rewrite reverse_Permutation].
    + rewrite <- Hsplit. by destruct Hinv.
Qed.

Lemma forEach_visit_simple f recur v stk ws :
  dfs_ok g U f recur → recur_simple g U f recur → ∀ t t',
  (∀ w, w ∈ ws → edge g v w) → inv g U (v :: stk) t →
  size (U ∖ marked t) ≤ f →
  forEach ws (visit recur v) t = Some t' → cycle_kept_or_simple t t'.
Proof.
  intros Hok Hrec. induction ws as [|w ws IH]; intros t t' Hws Hinv Hf.
  { intros [= <-]. apply cycle_kept_or_simple_refl. }
  simpl.
  destruct (visit_spec g U U_edge f recur v stk w t) as (t1 & Ht1 & Hp1 & _);
    [done..|by apply Hws; left|done|].
  rewrite Ht1. intros Ht'.
  eapply cycle_kept_or_simple_trans.
  - eapply visit_simple; [done..|by apply Hws; left|done|exact Ht1].
  - apply (IH t1); [|by destruct Hp1| |done].
    + intros w' Hw'. apply Hws. by right.
    + apply (size_unmarked_mono g U U_edge t t1 f); [by destruct Hp1 as (_ & ? & _)|done].
Qed.

Lemma dfs_simple f : recur_simple g U f (dfs f g).
Proof.
  induction f as [|f IH]; intros v t stk t' Hinv Hv HvU Hch Hf; [done|].
  set (t0 := set_onStack v (set_marked v t)).
  assert (Hvstk : v ∉ stk).
  { intros Hin. apply Hv.
    rewrite (inv_marked _ _ _ _ Hinv), (inv_stack _ _ _ _ Hinv). set_solver. }
  assert (Hinv0 : inv g U (v :: stk) t0).
  { destruct Hinv. subst t0. constructor; fields; try done.
    - set_solver.
    - set_solver.
    - by constructor.
    - intros x Hx Hord. apply elem_of_union in Hx as [Hx|Hx]; [|by eapply inv_disj0].
      apply elem_of_singleton in Hx as ->. apply Hv. set_solver.
    - set_solver. }
  assert (Hf0 : size (U ∖ marked t0) ≤ f).
  { subst t0; fields.
    assert (U ∖ marked t = {[v]} ∪ U ∖ ({[v]} ∪ marked t)) as Heq.
    { apply set_eq. intros x. destruct (decide (x = v)); set_solver. }
    rewrite Heq, size_union, size_singleton in Hf by set_solver. lia. }
  simpl. fold t0.
  destruct (forEach _ _ t0) as [t1|] eqn:Ht1; [|done]. intros [= <-].
  pose proof (forEach_visit_simple f (dfs f g) v stk _
                (dfs_spec g U U_edge f) IH t0 t1 (fun _ H => H) Hinv0 Hf0 Ht1) as Hs.
  intros c Hc. fields. destruct (Hs c Hc) as [Hc'|?]; [|by right].
  left. subst t0. by fields.
Qed.

Lemma forEach_vertices_simple f vs :
  size U ≤ f → ∀ t t',
  (∀ v, v ∈ vs → v ∈ U) → inv g U [] t →
  forEach vs (fun vertex t =>
                if decide (vertex ∉ marked t) then dfs f g vertex t else Some t) t
    = Some t' →
  cycle_kept_or_simple t t'.
Proof.
  intros Hf. induction vs as [|v vs IH]; intros t t' Hvs Hinv.
  { intros [= <-]. apply cycle_kept_or_simple_refl. }
  simpl.
  assert (size (U ∖ marked t) ≤ f) as Hf'.
  { etrans; [|exact Hf]. apply subseteq_size. set_solver. }
  destruct (decide (v ∉ marked t)) as [Hv|Hv].
  - destruct (dfs_spec g U U_edge f v t []) as (t1 & Ht1 & (Hinv1 & _) & _);
      [done..|by apply Hvs; left|done|done|].
    rewrite Ht1. intros Ht'. eapply cycle_kept_or_simple_trans.
    + eapply (dfs_simple f v t []); [done..|by apply Hvs; left|done|done|exact Ht1].
    + apply (IH t1); [|done..]. intros w Hw. apply Hvs. by right.
  - apply IH; [|done]. intros w Hw. apply Hvs. by right.
Qed.

End dfs_simple.

Lemma sorter_cycle_simple g t c :
  new_TopologicalSorter g = Some t → cycle t = Some c → simple_cycle c.
Proof.
  intros Ht Hc.
  pose proof (forEach_vertices_simple g (universe g) (universe_edge g)
                (S (size (universe g))) (getVertices g) ltac:(lia)
                init_TopologicalSorter t (universe_vertices g)
                (init_inv g (universe g)) Ht c Hc) as [?|?]; done.
Qed.

(** X6. A cycle that [getCycle] of the sorter returns names no vertex
    twice, but for the name that opens and closes it, and follows edges of
    the graph from each name to the next. *)
Theorem sorter_cycle_is_simple (ops : list graph_op) (sorter : TopologicalSorter)
    (c : list string) :
  Forall valid_op ops →
  new_TopologicalSorter (foldl apply_op new_Graph ops) = Some sorter →
  Sorter.getCycle sorter = Some c →
  simple_cycle c ∧ walk (foldl apply_op new_Graph ops) c.
Proof.
  intros _ Ht Hc. split; [by eapply sorter_cycle_simple|].
  by destruct (sorter_sound _ _ _ Ht Hc) as (? & ? & _ & _ & ?).
Qed.

Lemma lasso_example :
  simple_cycle ["B"; "C"; "A"; "B"] ∧
  walk (foldl apply_op new_Graph lasso_ops) ["B"; "C"; "A"; "B"].
Proof.
  destruct (sorter_runs (foldl apply_op new_Graph lasso_ops)) as (t & Ht & _).
  apply (sorter_cycle_is_simple lasso_ops t).
  - repeat constructor; by vm_compute.
  - exact Ht.
  - revert Ht. vm_compute. by intros [= <-].
Defined.

(** ** The resolver, again *)

(** X7. The constructor of the resolver stores a cycle or an ordering,
    never both and never neither.  The ordering stored lists exactly the
    names of the equations and the names their expressions refer to, each
    once. *)
Theorem resolver_state (inputEquations : EquationMap) :
  wf_equations inputEquations →
  ∃ resolver,
    EquationResolver.new inputEquations = Some resolver ∧
    EquationResolver.inputEquations resolver = inputEquations ∧
    ((EquationResolver.hasCycle resolver = true ∧
      (∃ c, EquationResolver.graphCycle resolver = Some c) ∧
      EquationResolver.topologicalOrder resolver = None) ∨
     (EquationResolver.hasCycle resolver = false ∧
      EquationResolver.graphCycle resolver = None ∧
      ∃ ord, EquationResolver.topologicalOrder resolver = Some ord ∧
             NoDup ord ∧
             ∀ x, x ∈ ord ↔ x ∈ inputEquations.*1 ∨ ∃ n, depends inputEquations n x)).
Proof.
  intros [Hkeys _].
  destruct (EquationResolver_new_spec inputEquations) as (srt & r & Hsrt & _ & Hr & Hin & _).
  exists r. split_and!; [done..|].
  destruct (decide (cycle srt = None)) as [Hc|Hc].
  - right. assert (¬ cyclic (EquationResolver.buildGraph inputEquations)) as Hacyc.
    { intros Hcyc%(sorter_cycle_iff _ _ (buildGraph_closed inputEquations) Hsrt). done. }
    destruct (resolver_expansion inputEquations Hkeys Hacyc)
      as (r' & ord & Hr' & _ & Hg & Hord & Hnd & Hmem & _).
    assert (r' = r) as -> by congruence.
    split_and!; [by unfold EquationResolver.hasCycle; rewrite Hg|done|].
    by exists ord.
  - left. apply (sorter_cycle_iff _ _ (buildGraph_closed inputEquations) Hsrt) in Hc.
    by destruct (resolver_refusal inputEquations r Hr Hc) as (? & ? & ? & _).
Qed.

Lemma canonical_state_example :
  ∃ resolver,
    EquationResolver.new two_cycle = Some resolver ∧
    EquationResolver.inputEquations resolver = two_cycle ∧
    ((EquationResolver.hasCycle resolver = true ∧
      (∃ c, EquationResolver.graphCycle resolver = Some c) ∧
      EquationResolver.topologicalOrder resolver = None) ∨
     (EquationResolver.hasCycle resolver = false ∧
      EquationResolver.graphCycle resolver = None ∧
      ∃ ord, EquationResolver.topologicalOrder resolver = Some ord ∧
             NoDup ord ∧
             ∀ x, x ∈ ord ↔ x ∈ two_cycle.*1 ∨ ∃ n, depends two_cycle n x)).
Proof.
  apply (resolver_state two_cycle). apply (bool_decide_unpack _). vm_compute. exact I.
Defined.

(** X8. How [getExpandedEquations] ends is decided by the equations alone:
    with the cycle error when some equation refers to itself through
    others; with a [TypeError] when there is no such circle but some
    expression refers to a name without an equation; and with a mapping
    otherwise. *)
Theorem expansion_outcome (inputEquations : EquationMap) :
  wf_equations inputEquations →
  ∃ resolver,
    EquationResolver.new inputEquations = Some resolver ∧
    ((∃ v, tc (depends inputEquations) v v) →
       ∃ message, EquationResolver.getExpandedEquations resolver = inl (Error message)) ∧
    (¬ (∃ v, tc (depends inputEquations) v v) → ¬ all_defined inputEquations →
       EquationResolver.getExpandedEquations resolver = inl TypeError) ∧
    (¬ (∃ v, tc (depends inputEquations) v v) → all_defined inputEquations →
       ∃ m, EquationResolver.getExpandedEquations resolver = inr m).
Proof.
  intros [Hkeys _].
  destruct (EquationResolver_new_spec inputEquations) as (srt & r & _ & _ & Hr & _).
  exists r. split_and!; [done| | |].
  - intros Hcyc%cyclic_depends.
    by destruct (resolver_refusal inputEquations r Hr Hcyc) as (_ & _ & _ & ?).
  - intros Hacyc Hundef. rewrite <- cyclic_depends in Hacyc.
    destruct (resolver_expansion inputEquations Hkeys Hacyc)
      as (r' & ord & Hr' & _ & _ & _ & _ & _ & _ & _ & Hthrow).
    assert (r' = r) as -> by congruence. by apply Hthrow.
  - intros Hacyc Hdef. rewrite <- cyclic_depends in Hacyc.
    destruct (resolver_expansion inputEquations Hkeys Hacyc)
      as (r' & ord & Hr' & _ & _ & _ & _ & _ & _ & Hret & _).
    assert (r' = r) as -> by congruence.
    destruct (Hret Hdef) as (m & Hm & _). by exists m.
Qed.

Lemma outcome_by_equations_example :
  ∃ resolver,
    EquationResolver.new canonical = Some resolver ∧
    ((∃ v, tc (depends canonical) v v) →
       ∃ message, EquationResolver.getExpandedEquations resolver = inl (Error message)) ∧
    (¬ (∃ v, tc (depends canonical) v v) → ¬ all_defined canonical →
       EquationResolver.getExpandedEquations resolver = inl TypeError) ∧
    (¬ (∃ v, tc (depends canonical) v v) → all_defined canonical →
       ∃ m, EquationResolver.getExpandedEquations resolver = inr m).
Proof. apply (expansion_outcome canonical). exact canonical_wf. Defined.

Lemma getExpandedEquations_returns eqs r m :
  NoDup eqs.*1 → EquationResolver.new eqs = Some r →
  EquationResolver.getExpandedEquations r = inr m →
  ¬ cyclic (EquationResolver.buildGraph eqs) ∧ all_defined eqs.
Proof.
  intros Hkeys Hr Hm.
  assert (¬ cyclic (EquationResolver.buildGraph eqs)) as Hacyc.
  { intros Hcyc. destruct (resolver_refusal eqs r Hr Hcyc) as (_ & _ & _ & msg & Hmsg).
    congruence. }
  split; [done|].
  destruct (resolver_expansion eqs Hkeys Hacyc)
    as (r' & ord & Hr' & _ & _ & _ & _ & Hmem & _ & _ & Hthrow).
  assert (r' = r) as -> by congruence.
  destruct (decide (Forall (fun n => n ∈ eqs.*1) ord)) as [Hall|Hnot].
  - apply (all_defined_ordering _ _ Hmem). by apply Forall_forall.
  - exfalso. assert (¬ all_defined eqs) as Hundef.
    { intros Hdef. apply Hnot, Forall_forall.
      by apply (all_defined_ordering _ _ Hmem). }
    specialize (Hthrow Hundef). congruence.
Qed.

Lemma getExpandedEquations_equations eqs r m :
  NoDup eqs.*1 →
  EquationResolver.new eqs = Some r →
  EquationResolver.getExpandedEquations r = inr m →
  dom m = list_to_set eqs.*1 ∧
  ∀ name expr, (name, expr) ∈ eqs →
    (∀ v, v ∈ tokens expr → is_Some (m !! v)) ∧
    m !! name = Some (String_replace expr RegExp.pieces (fun v => m !! v)).
Proof.
  intros Hkeys Hr Hm.
  destruct (getExpandedEquations_returns _ _ _ Hkeys Hr Hm) as [Hacyc Hdef].
  destruct (resolver_expansion eqs Hkeys Hacyc)
    as (r' & ord & Hr' & _ & _ & _ & _ & Hmem & _ & Hret & _).
  assert (r' = r) as -> by congruence.
  destruct (Hret Hdef) as (m' & Hm' & Hdom & Heqs).
  assert (m' = m) as -> by congruence.
  split.
  - rewrite Hdom. apply set_eq. intros x. rewrite !elem_of_list_to_set, Hmem.
    split; [|by left]. intros [?|(n & e & Hin & Hv)]; [done|]. by eapply Hdef.
  - intros name expr Hin. destruct (Heqs name expr Hin) as [Htok Hval].
    split; [|done]. intros v Hv. apply elem_of_dom. by apply Htok.
Qed.

(** X9. When [getExpandedEquations] returns, the mapping has exactly the
    names of the equations as keys, and the text of each name is its
    expression with every token replaced by the text that the mapping
    returned has for that token; none is missing, so [undefined] is never
    written. *)
Theorem expansion_equations (inputEquations : EquationMap)
    (resolver : EquationResolver.t) (expandedEquations : gmap string string) :
  wf_equations inputEquations →
  EquationResolver.new inputEquations = Some resolver →
  EquationResolver.getExpandedEquations resolver = inr expandedEquations →
  dom expandedEquations = list_to_set inputEquations.*1 ∧
  ∀ name expr, (name, expr) ∈ inputEquations →
    (∀ v, v ∈ tokens expr → is_Some (expandedEquations !! v)) ∧
    expandedEquations !! name =
      Some (String_replace expr EquationResolver.exprVarTokenRe
              (fun v => expandedEquations !! v)).
Proof. intros [Hkeys _]. by apply getExpandedEquations_equations. Qed.

Lemma canonical_fixpoint_example :
  dom ({[ "A" := "1+5+2"; "B" := "1+5"; "C" := "1"; "D" := "1+5+2+1+5" ]}
         : gmap string string)
    = list_to_set canonical.*1 ∧
  ∀ name expr, (name, expr) ∈ canonical →
    (∀ v, v ∈ tokens expr →
       is_Some (({[ "A" := "1+5+2"; "B" := "1+5"; "C" := "1"; "D" := "1+5+2+1+5" ]}
                   : gmap string string) !! v)) ∧
    ({[ "A" := "1+5+2"; "B" := "1+5"; "C" := "1"; "D" := "1+5+2+1+5" ]}
       : gmap string string) !! name =
      Some (String_replace expr EquationResolver.exprVarTokenRe
              (fun v => ({[ "A" := "1+5+2"; "B" := "1+5"; "C" := "1";
                            "D" := "1+5+2+1+5" ]} : gmap string string) !! v)).
Proof.
  with_resolver canonical ltac:(fun R HR =>
    apply (expansion_equations canonical R _ canonical_wf HR)).
  vm_compute. reflexivity.
Defined.

Lemma tc_ext {A} (R R' : relation A) x y :
  (∀ a b, R a b → R' a b) → tc R x y → tc R' x y.
Proof.
  intros H. induction 1 as [a b Hab|a b c Hab _ IH]; [by apply tc_once, H|].
  eapply tc_l; [by apply H|done].
Qed.

Lemma cyclic_Permutation eqs eqs' :
  eqs ≡ₚ eqs' →
  cyclic (EquationResolver.buildGraph eqs) → cyclic (EquationResolver.buildGraph eqs').
Proof.
  intros Hperm. rewrite !cyclic_depends. intros [v Hv]. exists v.
  eapply tc_ext; [|exact Hv]. intros a b (e & Hin & Hb). exists e.
  split; [by rewrite <- Hperm|done].
Qed.

Lemma all_defined_Permutation eqs eqs' : eqs ≡ₚ eqs' → all_defined eqs → all_defined eqs'.
Proof.
  intros Hperm Hdef name expr v Hin Hv. rewrite <- Hperm in Hin.
  rewrite <- Hperm. by eapply Hdef.
Qed.

(** X10. The outcome does not depend on the order in which the equations
    are given: for two inputs with the same equations, [hasCycle] agrees
    and [getExpandedEquations] ends alike, with the same mapping or with an
    error of the same kind. *)
Theorem expansion_order_independent (inputEquations inputEquations' : EquationMap) :
  wf_equations inputEquations →
  inputEquations ≡ₚ inputEquations' →
  ∃ resolver resolver',
    EquationResolver.new inputEquations = Some resolver ∧
    EquationResolver.new inputEquations' = Some resolver' ∧
    EquationResolver.hasCycle resolver = EquationResolver.hasCycle resolver' ∧
    same_outcome (EquationResolver.getExpandedEquations resolver)
                 (EquationResolver.getExpandedEquations resolver').
Proof.
  intros [Hkeys _] Hperm.
  assert (NoDup inputEquations'.*1) as Hkeys' by (by rewrite <- Hperm).
  destruct (EquationResolver_new_spec inputEquations) as (_ & r & _ & _ & Hr & _).
  destruct (EquationResolver_new_spec inputEquations') as (_ & r' & _ & _ & Hr' & _).
  exists r, r'. split; [done|]. split; [done|].
  destruct (EquationResolver.hasCycle r) eqn:Hhas.
  - pose proof (proj1 (EquationResolver_hasCycle _ _ Hr) Hhas) as Hcyc.
    pose proof (cyclic_Permutation _ _ Hperm Hcyc) as Hcyc'.
    destruct (resolver_refusal _ _ Hr Hcyc) as (_ & _ & _ & msg & ->).
    destruct (resolver_refusal _ _ Hr' Hcyc') as (-> & _ & _ & msg' & ->). done.
  - assert (¬ cyclic (EquationResolver.buildGraph inputEquations)) as Hacyc.
    { intros Hcyc%(EquationResolver_hasCycle _ _ Hr). congruence. }
    assert (¬ cyclic (EquationResolver.buildGraph inputEquations')) as Hacyc'.
    { intros Hcyc. apply Hacyc. by eapply cyclic_Permutation. }
    destruct (resolver_expansion _ Hkeys Hacyc)
      as (r0 & ord & Hr0 & _ & _ & _ & Hnd & Hmem & Hbefore & Hret & Hthrow).
    destruct (resolver_expansion _ Hkeys' Hacyc')
      as (r0' & ord' & Hr0' & _ & Hg' & _ & Hnd' & Hmem' & _ & Hret' & Hthrow').
    assert (r0 = r) as -> by congruence. assert (r0' = r') as -> by congruence.
    split; [by unfold EquationResolver.hasCycle; rewrite Hg'|].
    destruct (decide (Forall (fun n => n ∈ inputEquations.*1) ord)) as [Hall|Hnot].
    + assert (all_defined inputEquations) as Hdef
        by (apply (all_defined_ordering _ _ Hmem); by apply Forall_forall).
      destruct (Hret Hdef) as (m & -> & Hdom & Heqs).
      destruct (Hret' (all_defined_Permutation _ _ Hperm Hdef)) as (m' & -> & Hdom' & Heqs').
      simpl. apply (expansion_unique inputEquations ord); try done.
      * intros n Hn. rewrite Forall_forall in Hall.
        destruct (proj2 (get_is_Some inputEquations n) (Hall n Hn)) as [e Hget].
        exists e. split; [done|]. intros v Hv. apply Hbefore.
        exists e. split; [by apply get_elem_of|done].
      * rewrite Hdom'. apply set_eq. intros x.
        rewrite !elem_of_list_to_set, Hmem, Hmem'. unfold depends.
        by setoid_rewrite Hperm.
      * intros n e _ Hget. by apply Heqs, get_elem_of.
      * intros n e _ Hget. apply Heqs'. rewrite <- Hperm. by apply get_elem_of.
    + assert (¬ all_defined inputEquations) as Hundef.
      { intros Hdef. apply Hnot, Forall_forall.
        by apply (all_defined_ordering _ _ Hmem). }
      rewrite (Hthrow Hundef), Hthrow'; [done|].
      intros Hdef'. apply Hundef. eapply all_defined_Permutation; [|exact Hdef'].
      done.
Qed.

Lemma reversed_input_example :
  ∃ resolver resolver',
    EquationResolver.new canonical = Some resolver ∧
    EquationResolver.new (reverse canonical) = Some resolver' ∧
    EquationResolver.hasCycle resolver = EquationResolver.hasCycle resolver' ∧
    same_outcome (EquationResolver.getExpandedEquations resolver)
                 (EquationResolver.getExpandedEquations resolver').
Proof.
  apply (expansion_order_independent canonical (reverse canonical)).
  - exact canonical_wf.
  - symmetry. apply reverse_Permutation.
Defined.

Lemma expanded_token_free r m :
  EquationResolver.getExpandedEquations r = inr m →
  map_Forall (fun _ e => token_free e) m.
Proof.
  unfold EquationResolver.getExpandedEquations,
    EquationResolver.getExpandedEquations_traced.
  destruct (EquationResolver.hasCycle r); [done|].
  destruct (forEachThrowing _ _ _) as [e|[m' w]] eqn:Hloop; [done|].
  intros [= <-].
  by apply (expand_loop_token_free _ _ _ _ _ _ (map_Forall_empty _) Hloop).
Qed.

(** X11. Resolving what the resolver returned changes nothing: given the
    returned mapping as equations, in whatever order of enumeration, a new
    resolver finds no cycle and returns the same mapping. *)
Theorem expansion_idempotent (inputEquations again : EquationMap)
    (resolver : EquationResolver.t) (expandedEquations : gmap string string) :
  wf_equations inputEquations →
  EquationResolver.new inputEquations = Some resolver →
  EquationResolver.getExpandedEquations resolver = inr expandedEquations →
  NoDup again.*1 →
  (∀ name text, (name, text) ∈ again ↔ expandedEquations !! name = Some text) →
  ∃ resolver',
    EquationResolver.new again = Some resolver' ∧
    EquationResolver.hasCycle resolver' = false ∧
    EquationResolver.getExpandedEquations resolver' = inr expandedEquations.
Proof.
  intros _ Hr Hm Hkeys Hagain.
  pose proof (expanded_token_free _ _ Hm) as Hfree.
  assert (∀ v w, ¬ depends again v w) as Hnodep.
  { intros v w (e & Hin & Hw). apply Hagain in Hin.
    specialize (Hfree v e Hin). unfold token_free in Hfree. rewrite Hfree in Hw.
    by apply elem_of_nil in Hw. }
  assert (¬ cyclic (EquationResolver.buildGraph again)) as Hacyc.
  { rewrite cyclic_depends. intros [v Hv].
    destruct Hv as [v w Hw|v w ? Hw _]; by eapply Hnodep. }
  assert (all_defined again) as Hdef.
  { intros n e v Hin Hv. exfalso. apply (Hnodep n v). by exists e. }
  destruct (resolver_expansion again Hkeys Hacyc)
    as (r' & ord & Hr' & _ & Hg & _ & _ & Hmem & _ & Hret & _).
  destruct (Hret Hdef) as (m & Hm' & Hdom & Heqs).
  exists r'. split_and!; [done|by unfold EquationResolver.hasCycle; rewrite Hg|].
  rewrite Hm'. f_equal. apply map_eq. intros k.
  destruct (expandedEquations !! k) as [e|] eqn:Hk.
  - apply Hagain in Hk as Hin. destruct (Heqs k e Hin) as [_ ->]. f_equal.
    apply String_replace_unchanged. by apply (Hfree k), Hagain.
  - apply not_elem_of_dom. rewrite Hdom, elem_of_list_to_set, Hmem.
    intros [Hin|[n Hn]]; [|by eapply Hnodep].
    apply list_elem_of_fmap in Hin as ([k' e] & -> & Hin).
    apply Hagain in Hin. simpl in Hk. congruence.
Qed.

Lemma resolved_again_example :
  ∃ resolver',
    EquationResolver.new
      (map_to_list ({[ "A" := "1+5+2"; "B" := "1+5"; "C" := "1"; "D" := "1+5+2+1+5" ]}
                      : gmap string string)) = Some resolver' ∧
    EquationResolver.hasCycle resolver' = false ∧
    EquationResolver.getExpandedEquations resolver' =
      inr {[ "A" := "1+5+2"; "B" := "1+5"; "C" := "1"; "D" := "1+5+2+1+5" ]}.
Proof.
  with_resolver canonical ltac:(fun R HR =>
    apply (expansion_idempotent canonical _ R _ canonical_wf HR)).
  - vm_compute. reflexivity.
  - apply NoDup_fst_map_to_list.
  - intros name text. apply elem_of_map_to_list.
Defined.

(** ** The program *)

(** X12. [equationsToString] prints one line [name=equation] for each
    equation, in the ascending order of the names, whatever the order in
    which the object enumerates them. *)
Theorem equationsToString_sorted (equations sorted : EquationMap) :
  wf_equations equations →
  equations ≡ₚ sorted →
  StronglySorted String.le sorted.*1 →
  equationsToString equations =
    String.concat newline ((fun '(name, expr) => name +:+ "=" +:+ expr) <$> sorted).
Proof.
  intros [Hkeys _] Hperm Hsorted. unfold equationsToString.
  assert (merge_sort String.le equations.*1 = sorted.*1) as ->.
  { apply (StronglySorted_unique String.le); [|done|].
    - apply StronglySorted_merge_sort; apply _.
    - by rewrite merge_sort_Permutation, Hperm. }
  f_equal. rewrite <- list_fmap_compose. apply Forall_fmap_ext_1, Forall_forall.
  intros [name expr] Hin. simpl.
  rewrite (elem_of_get equations name expr Hkeys); [done|]. by rewrite Hperm.
Qed.

Lemma equationsToString_example :
  equationsToString [("B", "C+5"); ("D", "A+B"); ("A", "B+2"); ("C", "1")] =
    String.concat newline
      ((fun '(name, expr) => name +:+ "=" +:+ expr) <$> canonical).
Proof.
  apply equationsToString_sorted.
  - apply (bool_decide_unpack _). vm_compute. exact I.
  - apply NoDup_Permutation.
    + apply (bool_decide_unpack _). vm_compute. exact I.
    + apply (bool_decide_unpack _). vm_compute. exact I.
    + intros x. unfold canonical. set_solver.
  - unfold canonical. simpl. repeat constructor.
Defined.

(** X13. The program always ends, after writing the equations it was
    given.  It never ends by the cycle error: with a circular reference it
    writes the cycle that [getCycle] returns, which follows the edges of
    the dependency graph and names nothing twice but for its closing name;
    without one it writes what [getExpandedEquations] returns, or ends by
    the [TypeError] when an expression refers to a name without an
    equation. *)
Theorem main_outcome (inputEquations : EquationMap) :
  wf_equations inputEquations →
  ∃ lines err,
    main inputEquations = Some (lines, err) ∧
    head lines = Some ("Input Equations:" +:+ newline
                       +:+ equationsToString inputEquations +:+ newline) ∧
    (∀ message, err ≠ Some (Error message)) ∧
    ((∃ v, tc (depends inputEquations) v v) →
       err = None ∧
       ∃ resolver c,
         EquationResolver.new inputEquations = Some resolver ∧
         EquationResolver.getCycle resolver = Some c ∧
         simple_cycle c ∧
         walk (EquationResolver.buildGraph inputEquations) c ∧
         tail lines = ["Equations have a cycle, cannot resolve. Cycle: "
                       +:+ String.concat "->" c]) ∧
    (¬ (∃ v, tc (depends inputEquations) v v) → all_defined inputEquations →
       err = None ∧
       ∃ resolver expandedEquations,
         EquationResolver.new inputEquations = Some resolver ∧
         EquationResolver.getExpandedEquations resolver = inr expandedEquations ∧
         tail lines = ["Output (Expanded) Equations:" +:+ newline
                       +:+ equationsToString (map_to_list expandedEquations)]) ∧
    (¬ (∃ v, tc (depends inputEquations) v v) → ¬ all_defined inputEquations →
       err = Some TypeError ∧ tail lines = []).
Proof.
  intros [Hkeys _].
  destruct (EquationResolver_new_spec inputEquations)
    as (srt & r & Hsrt & _ & Hr & _ & Hc & _).
  unfold main. rewrite Hr.
  destruct (EquationResolver.hasCycle r) eqn:Hhas.
  - pose proof (proj1 (EquationResolver_hasCycle _ _ Hr) Hhas) as Hcyc.
    destruct (resolver_refusal _ _ Hr Hcyc) as (_ & _ & [c Hg] & _).
    unfold EquationResolver.getCycle. rewrite Hg.
    eexists _, _. split; [done|]. split; [done|]. split; [done|].
    split_and!.
    + intros _. split; [done|]. exists r, c.
      assert (cycle srt = Some c) as Hcs by congruence.
      destruct (sorter_sound _ _ _ Hsrt Hcs) as (w & l & Hwl & _ & Hwalk).
      split_and!; [done|done| |done|done].
      by eapply sorter_cycle_simple.
    + intros Hacyc. exfalso. by apply Hacyc, cyclic_depends.
    + intros Hacyc. exfalso. by apply Hacyc, cyclic_depends.
  - assert (¬ cyclic (EquationResolver.buildGraph inputEquations)) as Hacyc.
    { intros Hcyc%(EquationResolver_hasCycle _ _ Hr). congruence. }
    destruct (resolver_expansion _ Hkeys Hacyc)
      as (r0 & ord & Hr0 & _ & _ & _ & _ & Hmem & _ & Hret & Hthrow).
    assert (r0 = r) as -> by congruence.
    destruct (decide (Forall (fun n => n ∈ inputEquations.*1) ord)) as [Hall|Hnot].
    + assert (all_defined inputEquations) as Hdef
        by (apply (all_defined_ordering _ _ Hmem); by apply Forall_forall).
      destruct (Hret Hdef) as (m & Hm & _). rewrite Hm.
      eexists _, _. split; [done|]. split; [done|]. split; [done|].
      split_and!.
      * intros Hcyc. exfalso. by apply Hacyc, cyclic_depends.
      * intros _ _. split; [done|]. by exists r, m.
      * intros _ Hundef. done.
    + assert (¬ all_defined inputEquations) as Hundef.
      { intros Hdef. apply Hnot, Forall_forall.
        by apply (all_defined_ordering _ _ Hmem). }
      rewrite (Hthrow Hundef).
      eexists _, _. split; [done|]. split; [done|]. split; [done|].
      split_and!.
      * intros Hcyc. exfalso. by apply Hacyc, cyclic_depends.
      * intros _ Hdef. done.
      * done.
Qed.

Lemma program_on_cycle_example :
  ∃ lines err,
    main two_cycle = Some (lines, err) ∧
    head lines = Some ("Input Equations:" +:+ newline
                       +:+ equationsToString two_cycle +:+ newline) ∧
    (∀ message, err ≠ Some (Error message)) ∧
    ((∃ v, tc (depends two_cycle) v v) →
       err = None ∧
       ∃ resolver c,
         EquationResolver.new two_cycle = Some resolver ∧
         EquationResolver.getCycle resolver = Some c ∧
         simple_cycle c ∧
         walk (EquationResolver.buildGraph two_cycle) c ∧
         tail lines = ["Equations have a cycle, cannot resolve. Cycle: "
                       +:+ String.concat "->" c]) ∧
    (¬ (∃ v, tc (depends two_cycle) v v) → all_defined two_cycle →
       err = None ∧
       ∃ resolver expandedEquations,
         EquationResolver.new two_cycle = Some resolver ∧
         EquationResolver.getExpandedEquations resolver = inr expandedEquations ∧
         tail lines = ["Output (Expanded) Equations:" +:+ newline
                       +:+ equationsToString (map_to_list expandedEquations)]) ∧
    (¬ (∃ v, tc (depends two_cycle) v v) → ¬ all_defined two_cycle →
       err = Some TypeError ∧ tail lines = []).
Proof.
  apply (main_outcome two_cycle). apply (bool_decide_unpack _). vm_compute. exact I.
Defined.

(** ** The second resolver *)

Lemma resolvers_end_alike eqs r1 r2 :
  EquationResolver.new eqs = Some r1 → ExpressionResolver.new eqs = Some r2 →
  EquationResolver.hasCycle r1 = ExpressionResolver.hasCycle r2 ∧
  EquationResolver.graphCycle r1 = ExpressionResolver.graphCycle r2 ∧
  match EquationResolver.getExpandedEquations r1 with
  | inr m => ExpressionResolver.getExpandedExpressions r2 = inr m
  | inl TypeError => ExpressionResolver.getExpandedExpressions r2 = inl TypeError
  | inl (Error _) => ∃ message,
      ExpressionResolver.getExpandedExpressions r2 = inl (Error message)
  end.
Proof.
  intros Hr1 Hr2.
  destruct (EquationResolver_new_spec eqs)
    as (srt & r1' & Hsrt & _ & Hr1' & Hin1 & Hcyc1 & Hord1).
  destruct (ExpressionResolver_new_spec eqs)
    as (srt' & r2' & Hsrt' & Hr2' & Hin2 & Hflag2 & Hcyc2 & Hord2).
  assert (srt' = srt) as -> by congruence.
  assert (r1' = r1) as -> by congruence. assert (r2' = r2) as -> by congruence.
  assert (EquationResolver.hasCycle r1 = ExpressionResolver.hasCycle r2) as Hhas.
  { unfold EquationResolver.hasCycle, ExpressionResolver.hasCycle.
    rewrite Hcyc1, Hflag2. destruct (cycle srt); [done|].
    by rewrite bool_decide_eq_false_2 by (by intros []). }
  split_and!; [done|congruence|].
  unfold EquationResolver.getExpandedEquations,
    EquationResolver.getExpandedEquations_traced,
    ExpressionResolver.getExpandedExpressions.
  rewrite <- Hhas. destruct (EquationResolver.hasCycle r1); [by eexists|].
  rewrite Hin1, Hin2, Hord1, Hord2.
  pose proof (expand_loops_agree eqs
                (default [] match cycle srt with
                            | Some _ => None
                            | None => Some (ordering srt)
                            end) ∅ []) as Hloops.
  destruct (forEachThrowing _ (EquationResolver.expand eqs) _) as [e|[m w]].
  - rewrite Hloops. destruct e; [by eexists|done].
  - by rewrite Hloops.
Qed.

(** X14. In [ExpressionResolver] the flag and the field tell the same:
    [hasCycle] is true exactly when [getCycle] returns a cycle, which is
    exactly when some expression refers to itself through others. *)
Theorem ExpressionResolver_flag (inputExpressions : EquationMap)
    (resolver : ExpressionResolver.t) :
  wf_equations inputExpressions →
  ExpressionResolver.new inputExpressions = Some resolver →
  (ExpressionResolver.hasCycle resolver = true ↔
     ∃ c, ExpressionResolver.getCycle resolver = Some c) ∧
  (ExpressionResolver.hasCycle resolver = true ↔
     ∃ v, tc (depends inputExpressions) v v).
Proof.
  intros _ Hr2.
  destruct (EquationResolver_new_spec inputExpressions) as (_ & r1 & _ & _ & Hr1 & _).
  destruct (resolvers_end_alike _ _ _ Hr1 Hr2) as (Hhas & Hcyc & _).
  rewrite <- Hhas, <- cyclic_depends. unfold ExpressionResolver.getCycle.
  rewrite <- Hcyc. split; [|by apply EquationResolver_hasCycle].
  unfold EquationResolver.hasCycle.
  destruct (EquationResolver.graphCycle r1); split; try done.
  - by eexists.
  - by intros [? ?].
Qed.

(** X15. When [getExpandedExpressions] returns, the mapping has exactly the
    names of the expressions as keys, no cycle was found, and the text of
    each name is its expression with every token replaced by the text that
    the mapping returned has for that token. *)
Theorem ExpressionResolver_equations (inputExpressions : EquationMap)
    (resolver : ExpressionResolver.t) (expandedExpressions : gmap string string) :
  wf_equations inputExpressions →
  ExpressionResolver.new inputExpressions = Some resolver →
  ExpressionResolver.getExpandedExpressions resolver = inr expandedExpressions →
  ExpressionResolver.hasCycle resolver = false ∧
  dom expandedExpressions = list_to_set inputExpressions.*1 ∧
  ∀ name expr, (name, expr) ∈ inputExpressions →
    (∀ v, v ∈ tokens expr → is_Some (expandedExpressions !! v)) ∧
    expandedExpressions !! name =
      Some (String_replace expr ExpressionResolver.exprVarTokenRe
              (fun v => expandedExpressions !! v)).
Proof.
  intros [Hkeys _] Hr2 Hm.
  destruct (EquationResolver_new_spec inputExpressions) as (_ & r1 & _ & _ & Hr1 & _).
  destruct (resolvers_end_alike _ _ _ Hr1 Hr2) as (Hhas & _ & Hout).
  destruct (EquationResolver.getExpandedEquations r1) as [[msg|]|m] eqn:Hm1.
  - destruct Hout as [? ?]. congruence.
  - congruence.
  - assert (m = expandedExpressions) as -> by congruence.
    split; [|by apply (getExpandedEquations_equations _ r1)].
    rewrite <- Hhas.
    destruct (EquationResolver.hasCycle r1) eqn:Hh; [|done].
    unfold EquationResolver.getExpandedEquations,
      EquationResolver.getExpandedEquations_traced in Hm1. by rewrite Hh in Hm1.
Qed.

Lemma second_resolver_flag_example :
  ∃ resolver,
    ExpressionResolver.new two_cycle = Some resolver ∧
    (ExpressionResolver.hasCycle resolver = true ↔
       ∃ c, ExpressionResolver.getCycle resolver = Some c) ∧
    (ExpressionResolver.hasCycle resolver = true ↔
       ∃ v, tc (depends two_cycle) v v).
Proof.
  with_expression_resolver two_cycle ltac:(fun R HR =>
    exists R; split; [exact HR|];
    apply (ExpressionResolver_flag two_cycle R); [|exact HR]).
  apply (bool_decide_unpack _). vm_compute. exact I.
Defined.

Lemma second_resolver_equations_example :
  ∃ resolver,
    ExpressionResolver.new canonical = Some resolver ∧
    ExpressionResolver.hasCycle resolver = false ∧
    dom ({[ "A" := "1+5+2"; "B" := "1+5"; "C" := "1"; "D" := "1+5+2+1+5" ]}
           : gmap string string)
      = list_to_set canonical.*1 ∧
    ∀ name expr, (name, expr) ∈ canonical →
      (∀ v, v ∈ tokens expr →
         is_Some (({[ "A" := "1+5+2"; "B" := "1+5"; "C" := "1"; "D" := "1+5+2+1+5" ]}
                     : gmap string string) !! v)) ∧
      ({[ "A" := "1+5+2"; "B" := "1+5"; "C" := "1"; "D" := "1+5+2+1+5" ]}
         : gmap string string) !! name =
        Some (String_replace expr ExpressionResolver.exprVarTokenRe
                (fun v => ({[ "A" := "1+5+2"; "B" := "1+5"; "C" := "1";
                              "D" := "1+5+2+1+5" ]} : gmap string string) !! v)).
Proof.
  with_expression_resolver canonical ltac:(fun R HR =>
    exists R; split; [exact HR|];
    apply (ExpressionResolver_equations canonical R _ canonical_wf HR)).
  vm_compute. reflexivity.
Defined.
